(** * peru: plugin protocol, git plugin, asynchronous harness and tree cache

    A shallow embedding of the Python sources

      - [peru/plugin_shared.py]   (module [plugin_shared])
      - [peru/plugins/git_plugin.py] (module [git_plugin])
      - [peru/async.py]           (module [async])
      - the tree cache exercised by [tests/test_cache.py] (module [cache])

    Python exceptions are values of [exn]; a call that may raise returns a
    [result].  Code that touches the outside world threads an explicit world
    state. *)

From Stdlib Require Import ZArith Ascii.
From stdpp Require Import gmap strings pretty list fin_maps.

(** ** Python runtime: exceptions and results *)

Module Py.

(** The four ways [parse_plugin_args] constructs a [BadFieldsError]:
    'Never found "--" splitter.', ("uneven plugin fields", args),
    ("unrecognized field name", field_name), ("missing required fields", args). *)
Inductive bad_fields : Type :=
| NeverFoundSplitter
| UnevenPluginFields (args : list string)
| UnrecognizedFieldName (field_name : string)
| MissingRequiredFields (args : list string).

(** A command is an argument vector, or one string handed to the shell. *)
Inductive command : Type :=
| Argv (argv : list string)
| Shell (line : string).

Inductive exn : Type :=
| BadFieldsError (why : bad_fields)
| IndexError
| ValueError
| SystemExit (code : Z)
| AssertionError (msg : string)
| AttributeError (name : string)
| RuntimeError (msg : string)
| RecursionError
| OSError (errno_name : string)
| DirtyWorkingCopyError
| MergeConflictError
| CalledProcessError (returncode : Z) (cmd : command) (output : list N).

Inductive result (A : Type) : Type :=
| Ok (a : A)
| Raise (e : exn).
Arguments Ok {A} a.
Arguments Raise {A} e.

Definition is_ok {A} (r : result A) : bool :=
  match r with Ok _ => true | Raise _ => false end.

Definition is_bad_fields_error {A} (r : result A) : bool :=
  match r with Raise (BadFieldsError _) => true | _ => false end.

Definition is_assertion_error {A} (r : result A) : bool :=
  match r with Raise (AssertionError _) => true | _ => false end.

(** [seq[i]]: an out-of-range subscript raises [IndexError]. *)
Definition subscript {A} (l : list A) (i : nat) : result A :=
  match l !! i with
  | Some x => Ok x
  | None => Raise IndexError
  end.

(** [seq[0::2]] and [seq[1::2]]. *)
Fixpoint slice_even {A} (l : list A) : list A :=
  match l with
  | [] => []
  | x :: rest => x :: match rest with [] => [] | _ :: rest' => slice_even rest' end
  end.

Definition slice_odd {A} (l : list A) : list A := slice_even (tail l).

End Py.

Import Py.

(** Closed decidable facts (membership in a literal set, a lookup in a
    literal map) are settled by evaluation. *)
Ltac by_evaluation :=
  lazymatch goal with
  | |- ?P => apply (@bool_decide_unpack P _); vm_compute; exact I
  end.

(** ** peru/plugin_shared.py *)

Module plugin_shared.

(** The [while ... else] loop of [parse_plugin_args]: [rest] is [args[splitter:]].
    The loop looks at [args[splitter]] and then skips two places, so only even
    positions are ever compared with "--". [None] is the [else] branch (the
    loop ran off the end). *)
Fixpoint find_splitter (rest : list string) (splitter : nat) : option nat :=
  match rest with
  | [] => None
  | a :: rest' =>
      if String.eqb a "--" then Some splitter
      else match rest' with
           | [] => None
           | _ :: rest'' => find_splitter rest'' (splitter + 2)
           end
  end.

(** The [for field_name, field_val in zip(...)] loop, started from [fields_dict]. *)
Fixpoint parse_fields (all_fields : gset string) (pairs : list (string * string))
    (fields_dict : gmap string string) : result (gmap string string) :=
  match pairs with
  | [] => Ok fields_dict
  | (field_name, field_val) :: pairs' =>
      if decide (field_name ∈ all_fields)
      then parse_fields all_fields pairs' (<[field_name := field_val]> fields_dict)
      else Raise (BadFieldsError (UnrecognizedFieldName field_name))
  end.

(** [parse_plugin_args], with [args = sys.argv[1:]] as an argument. *)
Definition parse_plugin_args (required_fields optional_fields : gset string)
    (args : list string) : result (gmap string string * string * list string) :=
  let all_fields := required_fields ∪ optional_fields in
  match find_splitter args 0 with
  | None => Raise (BadFieldsError NeverFoundSplitter)
  | Some splitter =>
      let field_args := take splitter args in
      match subscript args (splitter + 1) with
      | Raise e => Raise e
      | Ok command =>
          let command_args := drop (splitter + 2) args in
          if negb (Nat.eqb (length field_args mod 2) 0)
          then Raise (BadFieldsError (UnevenPluginFields args))
          else
            match parse_fields all_fields
                    (zip (slice_even field_args) (slice_odd field_args)) ∅ with
            | Raise e => Raise e
            | Ok fields_dict =>
                if decide (dom fields_dict ∩ required_fields ≠ required_fields)
                then Raise (BadFieldsError (MissingRequiredFields args))
                else Ok (fields_dict, command, command_args)
            end
      end
  end.

Section plugin_main.

(** What the plugin's callbacks act on is left open; [stderr] collects the
    lines printed to [sys.stderr]. *)
Context {St : Type}.

Record world : Type := World { stderr : list string; plugin_state : St }.

Variable fetch_fn : gmap string string → string → string → St → result unit * St.
Variable reup_fn : gmap string string → string → St → result unit * St.

Definition plugin_main (required_fields optional_fields : gset string)
    (args : list string) (w : world) : result unit * world :=
  match parse_plugin_args required_fields optional_fields args with
  | Raise e => (Raise e, w)
  | Ok (fields, command, command_args) =>
      if String.eqb command "fetch" then
        match command_args with
        | [dest; cache_path] =>
            let '(r, s) := fetch_fn fields dest cache_path (plugin_state w) in
            (r, World (stderr w) s)
        | _ => (Raise ValueError, w)
        end
      else if String.eqb command "reup" then
        match command_args with
        | [cache_path] =>
            let '(r, s) := reup_fn fields cache_path (plugin_state w) in
            (r, World (stderr w) s)
        | _ => (Raise ValueError, w)
        end
      else
        (Raise (SystemExit 1),
         World (stderr w ++ ["Unknown command: " +:+ command]) (plugin_state w))
  end.

End plugin_main.

(** *** Reading the argument vector *)

(** [s] is the splitter: the first even position that holds "--". *)
Definition is_splitter (args : list string) (s : nat) : Prop :=
  Nat.Even s ∧ args !! s = Some "--" ∧
  ∀ j, j < s → Nat.Even j → args !! j ≠ Some "--".

(** The name/value pairs in front of position [s]. *)
Definition field_pairs (args : list string) (s : nat) : list (string * string) :=
  zip (slice_even (take s args)) (slice_odd (take s args)).

(** The dictionary a list of pairs builds: a later pair replaces an earlier
    one with the same name. *)
Definition dict_of (pairs : list (string * string)) : gmap string string :=
  list_to_map (reverse pairs).

(** The argument vector of an invocation
    [plugin FIELD VAL ... -- command ARG ...]. *)
Fixpoint field_args_of (pairs : list (string * string)) : list string :=
  match pairs with
  | [] => []
  | (field_name, field_val) :: pairs' => field_name :: field_val :: field_args_of pairs'
  end.

Definition plugin_argv (pairs : list (string * string)) (command : string)
    (command_args : list string) : list string :=
  field_args_of pairs ++ "--" :: command :: command_args.

Definition is_uneven_error {A} (r : result A) : bool :=
  match r with Raise (BadFieldsError (UnevenPluginFields _)) => true | _ => false end.

(** Callbacks that record their arguments in the plugin state, and the
    fields of the git plugin. *)
Definition record_fetch (fields : gmap string string) (dest cache_path : string)
    (log : list string) : result unit * list string :=
  (Ok (), log ++ ["fetch"; default "" (fields !! "url"); dest; cache_path]).

Definition record_reup (fields : gmap string string) (cache_path : string)
    (log : list string) : result unit * list string :=
  (Ok (), log ++ ["reup"; default "" (fields !! "url"); cache_path]).

Definition git_required : gset string := {["url"]}.
Definition git_optional : gset string := {["rev"; "reup"]}.

Lemma find_splitter_Some_aux n : ∀ rest s s',
  length rest ≤ n → find_splitter rest s = Some s' →
  ∃ k, s' = s + 2 * k ∧ rest !! (2 * k) = Some "--" ∧
       ∀ j, j < k → rest !! (2 * j) ≠ Some "--".
Proof.
  induction n as [|n IH]; intros rest s s' Hlen Hf.
  - destruct rest; simpl in *; [discriminate | lia].
  - destruct rest as [|a rest]; simpl in Hf; [discriminate|].
    destruct (String.eqb a "--") eqn:Ha.
    + apply String.eqb_eq in Ha. subst a. inversion Hf; subst s'.
      exists 0. split; [lia|]. split; [done|]. intros j Hj. lia.
    + apply String.eqb_neq in Ha.
      destruct rest as [|b rest]; [discriminate|].
      apply IH in Hf; [|simpl in *; lia].
      destruct Hf as (k & -> & Hk & Hbefore).
      exists (S k). split; [lia|]. split.
      * replace (2 * S k) with (S (S (2 * k))) by lia. done.
      * intros [|j] Hj; simpl.
        -- congruence.
        -- replace (j + S (j + 0)) with (S (2 * j)) by lia. simpl.
           apply Hbefore. lia.
Qed.

Lemma find_splitter_None_aux n : ∀ rest s,
  length rest ≤ n → find_splitter rest s = None →
  ∀ j, rest !! (2 * j) ≠ Some "--".
Proof.
  induction n as [|n IH]; intros rest s Hlen Hf j.
  - destruct rest; simpl in *; [by rewrite lookup_nil | lia].
  - destruct rest as [|a rest]; simpl in Hf; [by rewrite lookup_nil|].
    destruct (String.eqb a "--") eqn:Ha; [discriminate|].
    apply String.eqb_neq in Ha.
    destruct j as [|j]; simpl; [congruence|].
    replace (j + S (j + 0)) with (S (2 * j)) by lia.
    destruct rest as [|b rest]; simpl; [done|].
    eapply IH; [|exact Hf]. simpl in *; lia.
Qed.

Lemma find_splitter_is_splitter args s :
  find_splitter args 0 = Some s ↔ is_splitter args s.
Proof.
  split.
  - intros Hf. eapply find_splitter_Some_aux in Hf; [|reflexivity].
    destruct Hf as (k & -> & Hk & Hbefore). simpl.
    split; [exists k; lia|]. split; [exact Hk|].
    intros j Hj [i ->]. apply Hbefore. lia.
  - intros (Hev & Hs & Hbefore).
    destruct (find_splitter args 0) as [s'|] eqn:Hf.
    + eapply find_splitter_Some_aux in Hf; [|reflexivity].
      destruct Hf as (k & -> & Hk & Hbefore'). simpl in *.
      destruct Hev as [i ->].
      destruct (Nat.lt_trichotomy i k) as [Hlt|[->|Hgt]]; [| done |].
      * exfalso. by apply (Hbefore' i).
      * exfalso. apply (Hbefore (2 * k)); [lia | by exists k | done].
    + exfalso. destruct Hev as [i ->].
      by eapply find_splitter_None_aux in Hf.
Qed.

Lemma find_splitter_no_splitter args :
  find_splitter args 0 = None ↔ ∀ s, ¬ is_splitter args s.
Proof.
  split.
  - intros Hf s Hs. apply find_splitter_is_splitter in Hs. congruence.
  - intros Hno. destruct (find_splitter args 0) as [s|] eqn:Hf; [|done].
    apply find_splitter_is_splitter in Hf. by apply Hno in Hf.
Qed.

(** The "uneven plugin fields" test cannot fire: the splitter is even. *)
Lemma field_args_even args s :
  is_splitter args s → length (take s args) mod 2 = 0.
Proof.
  intros ([k ->] & Hs & _).
  apply lookup_lt_Some in Hs.
  rewrite length_take, Nat.min_l by lia.
  rewrite Nat.mul_comm. apply Nat.Div0.mod_mul.
Qed.

Lemma parse_fields_recognized all_fields pairs : ∀ d,
  Forall (λ p, p.1 ∈ all_fields) pairs →
  parse_fields all_fields pairs d = Ok (dict_of pairs ∪ d).
Proof.
  unfold dict_of.
  induction pairs as [|[name val] pairs IH]; intros d Hall; simpl.
  - by rewrite (left_id_L ∅ (∪)).
  - inversion Hall as [|? ? Hname Hrest]; subst. simpl in Hname.
    rewrite decide_True by done. rewrite IH by done. f_equal.
    rewrite reverse_cons, list_to_map_app. simpl.
    rewrite <- (assoc_L (∪)). f_equal.
    by rewrite insert_union_singleton_l, insert_empty.
Qed.

Lemma parse_fields_unrecognized all_fields pre name val post : ∀ d,
  Forall (λ p, p.1 ∈ all_fields) pre → name ∉ all_fields →
  parse_fields all_fields (pre ++ (name, val) :: post) d
  = Raise (BadFieldsError (UnrecognizedFieldName name)).
Proof.
  induction pre as [|[n v] pre IH]; intros d Hall Hname; simpl.
  - by rewrite decide_False.
  - inversion Hall as [|? ? Hn Hrest]; subst. simpl in Hn.
    rewrite decide_True by done. by apply IH.
Qed.

Lemma dom_dict_of pairs : dom (dict_of pairs) = list_to_set pairs.*1.
Proof.
  unfold dict_of. rewrite dom_list_to_map_L, fmap_reverse.
  apply set_eq. intros x. rewrite !elem_of_list_to_set. apply elem_of_reverse.
Qed.

Lemma required_present (names required_fields : gset string) :
  names ∩ required_fields = required_fields ↔ required_fields ⊆ names.
Proof.
  split.
  - intros <-. apply intersection_subseteq_l.
  - intros Hsub. apply set_eq. intros x. rewrite elem_of_intersection.
    split; [tauto | auto].
Qed.

(** What [parse_plugin_args] returns once a command follows the splitter. *)
Lemma parse_plugin_args_with_command required_fields optional_fields args s command :
  is_splitter args s → args !! (s + 1) = Some command →
  parse_plugin_args required_fields optional_fields args
  = match parse_fields (required_fields ∪ optional_fields) (field_pairs args s) ∅ with
    | Raise e => Raise e
    | Ok fields_dict =>
        if decide (required_fields ⊆ dom fields_dict)
        then Ok (fields_dict, command, drop (s + 2) args)
        else Raise (BadFieldsError (MissingRequiredFields args))
    end.
Proof.
  intros Hs Hcmd. unfold parse_plugin_args.
  rewrite (proj2 (find_splitter_is_splitter args s) Hs).
  unfold subscript. rewrite Hcmd. rewrite field_args_even by done. simpl.
  fold (field_pairs args s).
  destruct (parse_fields _ _ _) as [d|e]; [|done].
  destruct (decide (required_fields ⊆ dom d)) as [Hsub|Hsub].
  - rewrite decide_False; [done|]. intros Hne. apply Hne.
    by apply required_present.
  - rewrite decide_True; [done|]. intros Heq. apply Hsub.
    by apply required_present.
Qed.

(** C8 (claim as amended). Let the splitter be the first "--" at an even
    position of the argument vector, so that a "--" in a value position is a
    field value and the arguments in front of the splitter always pair up.
    A vector without a splitter raises BadFieldsError. When an argument (the
    command) follows the splitter: the field names are checked, in order,
    against required ∪ optional fields and the first unrecognized one raises
    BadFieldsError; with every name recognized, a missing required field
    raises BadFieldsError; otherwise "fetch" with two command arguments calls
    fetch_fn(fields, dest, cache_path), "reup" with one calls
    reup_fn(fields, cache_path), and any other command prints
    "Unknown command: <command>" to stderr and exits with status 1. *)
Theorem plugin_main_protocol {St : Type}
    (fetch_fn : gmap string string → string → string → St → result unit * St)
    (reup_fn : gmap string string → string → St → result unit * St)
    (required_fields optional_fields : gset string) (args : list string)
    (w : world) :
  let main := plugin_main fetch_fn reup_fn required_fields optional_fields args w in
  let recognized := λ p : string * string, p.1 ∈ required_fields ∪ optional_fields in
  ((∀ s, ¬ is_splitter args s) →
     main = (Raise (BadFieldsError NeverFoundSplitter), w)) ∧
  (∀ s command, is_splitter args s → args !! (s + 1) = Some command →
     let pairs := field_pairs args s in
     let fields := dict_of pairs in
     length (take s args) mod 2 = 0 ∧
     (∀ pre name val post,
        pairs = pre ++ (name, val) :: post → Forall recognized pre →
        ¬ recognized (name, val) →
        main = (Raise (BadFieldsError (UnrecognizedFieldName name)), w)) ∧
     (Forall recognized pairs → ¬ required_fields ⊆ list_to_set pairs.*1 →
        main = (Raise (BadFieldsError (MissingRequiredFields args)), w)) ∧
     (Forall recognized pairs → required_fields ⊆ list_to_set pairs.*1 →
        (∀ dest cache_path,
           command = "fetch" → drop (s + 2) args = [dest; cache_path] →
           main = let '(r, st) := fetch_fn fields dest cache_path (plugin_state w) in
                  (r, World (stderr w) st)) ∧
        (∀ cache_path,
           command = "reup" → drop (s + 2) args = [cache_path] →
           main = let '(r, st) := reup_fn fields cache_path (plugin_state w) in
                  (r, World (stderr w) st)) ∧
        (command ≠ "fetch" → command ≠ "reup" →
           main = (Raise (SystemExit 1),
                   World (stderr w ++ ["Unknown command: " +:+ command])
                         (plugin_state w))))).
Proof.
  intros main recognized. subst main. unfold plugin_main. split.
  - intros Hno. apply find_splitter_no_splitter in Hno.
    unfold parse_plugin_args. by rewrite Hno.
  - intros s command Hs Hcmd.
    rewrite (parse_plugin_args_with_command _ _ _ s command) by done.
    split; [by apply field_args_even|]. split; [|split].
    + intros pre name val post Hpairs Hpre Hname. rewrite Hpairs.
      by rewrite parse_fields_unrecognized.
    + intros Hall Hmiss. rewrite parse_fields_recognized by done.
      rewrite (right_id_L ∅ (∪)), dom_dict_of. by rewrite decide_False.
    + intros Hall Hreq. rewrite parse_fields_recognized by done.
      rewrite (right_id_L ∅ (∪)), dom_dict_of. rewrite decide_True by done.
      split; [|split].
      * intros dest cache_path -> ->. done.
      * intros cache_path -> ->. done.
      * intros Hf Hr. apply String.eqb_neq in Hf, Hr. by rewrite Hf, Hr.
Qed.

Lemma plugin_main_protocol_witness :
  plugin_main record_fetch record_reup git_required git_optional
    ["url"; "u"; "rev"; "--"; "--"; "fetch"; "d"; "c"] (World [] [])
  = (Ok (), World [] ["fetch"; "u"; "d"; "c"]).
Proof.
  pose proof (plugin_main_protocol record_fetch record_reup git_required
    git_optional ["url"; "u"; "rev"; "--"; "--"; "fetch"; "d"; "c"]
    (World [] [])) as [_ H].
  specialize (H 4 "fetch").
  destruct H as (_ & _ & _ & H).
  - split; [by exists 2|]. split; [done|].
    intros j Hj Hev.
    destruct j as [|[|[|[|j]]]]; simpl; try discriminate; try lia.
    destruct Hev as [i Hi]; lia.
  - reflexivity.
  - destruct H as (H & _).
    + apply Forall_forall. intros p Hp. simpl in Hp.
      apply elem_of_cons in Hp as [->|Hp]; [by_evaluation|].
      apply elem_of_cons in Hp as [->|Hp]; [by_evaluation|].
      by apply elem_of_nil in Hp.
    + by_evaluation.
    + exact (H "d" "c" eq_refl eq_refl).
Defined.

(** C8 (claim as stated) fails, twice. A "--" at an odd position is a
    field value: the first vector has one argument in front of its first
    "--", an odd number, and is accepted with url = "--". The second vector
    has an unrecognized field name and lacks the required field, and ends
    at the splitter: [command = args[splitter+1]] is read before the
    fields are checked and raises IndexError, not BadFieldsError. *)
Lemma parse_plugin_args_not_bad_fields :
  (list_find (λ a, a = "--") ["url"; "--"; "rev"; "x"; "--"; "fetch"; "d"; "c"]
   = Some (1, "--")
   ∧ parse_plugin_args git_required git_optional
       ["url"; "--"; "rev"; "x"; "--"; "fetch"; "d"; "c"]
     = Ok ({["url" := "--"; "rev" := "x"]}, "fetch", ["d"; "c"]))
  ∧ (find_splitter ["bogus"; "x"; "--"] 0 = Some 2
     ∧ field_pairs ["bogus"; "x"; "--"] 2 = [("bogus", "x")]
     ∧ ("bogus" ∉ git_required ∪ git_optional)
     ∧ ¬ git_required ⊆ list_to_set [("bogus", "x")].*1
     ∧ parse_plugin_args git_required git_optional ["bogus"; "x"; "--"]
       = Raise IndexError
     ∧ is_bad_fields_error
         (parse_plugin_args git_required git_optional ["bogus"; "x"; "--"])
       = false).
Proof.
  split; [split; by vm_compute|].
  split; [reflexivity|]. split; [reflexivity|]. split; [by_evaluation|].
  split; [by_evaluation|]. split; reflexivity.
Qed.

Example plugin_main_unknown_command :
  plugin_main record_fetch record_reup git_required git_optional
    ["url"; "u"; "--"; "frob"] (World [] [])
  = (Raise (SystemExit 1), World ["Unknown command: frob"] []).
Proof. vm_compute. reflexivity. Qed.

Example plugin_main_reup :
  plugin_main record_fetch record_reup git_required git_optional
    ["url"; "u"; "--"; "reup"; "c"] (World [] [])
  = (Ok (), World [] ["reup"; "u"; "c"]).
Proof. vm_compute. reflexivity. Qed.

Example plugin_main_fetch_arity :
  plugin_main record_fetch record_reup git_required git_optional
    ["url"; "u"; "--"; "fetch"; "d"] (World [] [])
  = (Raise ValueError, World [] []).
Proof. vm_compute. reflexivity. Qed.

(** *** Invocations and what is read back from them *)

Lemma slice_odd_cons2 {A} (a b : A) (l : list A) :
  slice_odd (a :: b :: l) = b :: slice_odd l.
Proof. by destruct l. Qed.

Lemma field_pairs_field_args_of pairs :
  zip (slice_even (field_args_of pairs)) (slice_odd (field_args_of pairs)) = pairs.
Proof.
  induction pairs as [|[name val] pairs IH]; [done|].
  cbn [field_args_of]. rewrite slice_odd_cons2. simpl. by rewrite IH.
Qed.

Lemma field_args_of_field_pairs n : ∀ l : list string,
  length l = 2 * n →
  field_args_of (zip (slice_even l) (slice_odd l)) = l.
Proof.
  induction n as [|n IH]; intros l Hl.
  - by destruct l.
  - destruct l as [|a [|b l]]; simpl in Hl; try lia.
    rewrite slice_odd_cons2. simpl. rewrite IH by lia. done.
Qed.

Lemma find_splitter_field_args_of pairs rest : ∀ n,
  Forall (λ p, p.1 ≠ "--") pairs →
  find_splitter (field_args_of pairs ++ "--" :: rest) n
  = Some (n + length (field_args_of pairs)).
Proof.
  induction pairs as [|[name val] pairs IH]; intros n Hnames; simpl.
  - f_equal. lia.
  - inversion Hnames as [|? ? Hname Hrest]; subst. simpl in Hname.
    apply String.eqb_neq in Hname. rewrite Hname, IH by done. f_equal. lia.
Qed.

(** Where the splitter of an invocation is, and what lies around it. *)
Lemma plugin_argv_parts pairs command command_args :
  Forall (λ p, p.1 ≠ "--") pairs →
  let args := plugin_argv pairs command command_args in
  let s := length (field_args_of pairs) in
  is_splitter args s ∧ args !! (s + 1) = Some command
  ∧ field_pairs args s = pairs ∧ drop (s + 2) args = command_args.
Proof.
  intros Hnames args s. subst args s. unfold plugin_argv. split; [|split; [|split]].
  - apply find_splitter_is_splitter. by rewrite find_splitter_field_args_of.
  - rewrite lookup_app_r by lia.
    by replace (length _ + 1 - length _) with 1 by lia.
  - unfold field_pairs. rewrite take_app_length. apply field_pairs_field_args_of.
  - rewrite drop_app_ge by lia.
    by replace (length _ + 2 - length _) with 2 by lia.
Qed.

(** X1. An invocation built from name/value pairs whose names are not "--"
    (values may be), are recognized and cover the required fields is read
    back whole: the fields as a dictionary, the command and the command
    arguments. *)
Theorem parse_plugin_argv (required_fields optional_fields : gset string)
    (pairs : list (string * string)) (command : string) (command_args : list string) :
  Forall (λ p, p.1 ≠ "--") pairs →
  Forall (λ p, p.1 ∈ required_fields ∪ optional_fields) pairs →
  required_fields ⊆ list_to_set pairs.*1 →
  parse_plugin_args required_fields optional_fields
    (plugin_argv pairs command command_args)
  = Ok (dict_of pairs, command, command_args).
Proof.
  intros Hnames Hrecognized Hrequired.
  destruct (plugin_argv_parts pairs command command_args Hnames)
    as (Hs & Hcmd & Hpairs & Hdrop).
  rewrite (parse_plugin_args_with_command _ _ _ _ _ Hs Hcmd), Hpairs, Hdrop.
  rewrite parse_fields_recognized by done.
  rewrite (right_id_L ∅ (∪)), dom_dict_of. by rewrite decide_True.
Qed.

Lemma parse_plugin_argv_witness :
  parse_plugin_args git_required git_optional
    (plugin_argv [("rev", "--"); ("url", "u")] "fetch" ["d"; "c"])
  = Ok ({["rev" := "--"; "url" := "u"]}, "fetch", ["d"; "c"]).
Proof.
  rewrite (parse_plugin_argv git_required git_optional
             [("rev", "--"); ("url", "u")] "fetch" ["d"; "c"]).
  - by vm_compute.
  - by repeat constructor.
  - repeat constructor; by_evaluation.
  - by_evaluation.
Defined.

Lemma dict_of_last pre name val post :
  name ∉ post.*1 → dict_of (pre ++ (name, val) :: post) !! name = Some val.
Proof.
  intros Hlast. unfold dict_of.
  rewrite reverse_app, reverse_cons, <- app_assoc, list_to_map_app.
  rewrite lookup_union_r.
  - simpl. by rewrite lookup_insert_eq.
  - apply not_elem_of_list_to_map. by rewrite fmap_reverse, elem_of_reverse.
Qed.

(** X2. A field given more than once keeps the value given last. *)
Theorem parse_plugin_args_last_value (required_fields optional_fields : gset string)
    (pre post : list (string * string)) (name val command : string)
    (command_args : list string) :
  let pairs := pre ++ (name, val) :: post in
  Forall (λ p, p.1 ≠ "--") pairs →
  Forall (λ p, p.1 ∈ required_fields ∪ optional_fields) pairs →
  required_fields ⊆ list_to_set pairs.*1 →
  name ∉ post.*1 →
  ∃ fields,
    parse_plugin_args required_fields optional_fields
      (plugin_argv pairs command command_args)
    = Ok (fields, command, command_args)
    ∧ fields !! name = Some val.
Proof.
  intros pairs Hnames Hrecognized Hrequired Hlast.
  destruct (plugin_argv_parts pairs command command_args Hnames)
    as (Hs & Hcmd & Hpairs & Hdrop).
  exists (dict_of pairs). split; [|by apply dict_of_last].
  rewrite (parse_plugin_args_with_command _ _ _ _ _ Hs Hcmd), Hpairs, Hdrop.
  rewrite parse_fields_recognized by done.
  rewrite (right_id_L ∅ (∪)), dom_dict_of. by rewrite decide_True.
Qed.

Lemma parse_plugin_args_last_value_witness :
  ∃ fields,
    parse_plugin_args git_required git_optional
      ["url"; "first"; "rev"; "r"; "url"; "second"; "--"; "fetch"; "d"; "c"]
    = Ok (fields, "fetch", ["d"; "c"])
    ∧ fields !! "url" = Some "second".
Proof.
  apply (parse_plugin_args_last_value git_required git_optional
           [("url", "first"); ("rev", "r")] [] "url" "second" "fetch" ["d"; "c"]).
  - by repeat constructor.
  - repeat constructor; by_evaluation.
  - by_evaluation.
  - by_evaluation.
Defined.

Lemma parse_fields_Ok all_fields pairs : ∀ d d',
  parse_fields all_fields pairs d = Ok d' →
  Forall (λ p, p.1 ∈ all_fields) pairs.
Proof.
  induction pairs as [|[name val] pairs IH]; intros d d' H; [constructor|].
  simpl in H. destruct (decide (name ∈ all_fields)); [|done].
  constructor; [done | by eapply IH].
Qed.

Lemma dict_of_cons_union name val pairs (d : gmap string string) :
  dict_of ((name, val) :: pairs) ∪ d = dict_of pairs ∪ <[name := val]> d.
Proof.
  unfold dict_of. rewrite reverse_cons, list_to_map_app. simpl.
  rewrite <- (assoc_L (∪)). f_equal.
  by rewrite <- insert_union_l, (left_id_L ∅ (∪)).
Qed.

(** The shape of what is accepted. *)
Lemma parse_plugin_args_Ok_pairs
    (required_fields optional_fields : gset string) (args : list string)
    (fields : gmap string string) (command : string) (command_args : list string) :
  parse_plugin_args required_fields optional_fields args
  = Ok (fields, command, command_args) →
  ∃ pairs,
    args = plugin_argv pairs command command_args
    ∧ fields = dict_of pairs
    ∧ Forall (λ p, p.1 ∈ required_fields ∪ optional_fields) pairs
    ∧ dom fields ∩ required_fields = required_fields.
Proof.
  intros Hparse. unfold parse_plugin_args in Hparse.
  destruct (find_splitter args 0) as [s|] eqn:Hs; [|done].
  apply find_splitter_is_splitter in Hs.
  pose proof (field_args_even args s Hs) as Heven.
  destruct Hs as ([k ->] & Hsplit & _).
  unfold subscript in Hparse.
  destruct (args !! (2 * k + 1)) as [cmd|] eqn:Hcmd; [|done].
  rewrite Heven in Hparse.
  replace (negb (Nat.eqb 0 0)) with false in Hparse by done.
  cbv iota in Hparse.
  destruct (parse_fields _ _ ∅) as [d|e] eqn:Hfields; [|done].
  destruct (decide (dom d ∩ required_fields ≠ required_fields)) as [|Hreq];
    [done|].
  injection Hparse as -> -> <-.
  pose proof (parse_fields_Ok _ _ _ _ Hfields) as Hrecognized.
  rewrite parse_fields_recognized, (right_id_L ∅ (∪)) in Hfields by done.
  injection Hfields as Hd.
  exists (zip (slice_even (take (2 * k) args)) (slice_odd (take (2 * k) args))).
  pose proof (lookup_lt_Some _ _ _ Hsplit) as Hlt.
  split; [|split; [done|split; [done|]]].
  - unfold plugin_argv.
    rewrite (field_args_of_field_pairs k) by (rewrite length_take; lia).
    rewrite <- (take_drop (2 * k) args) at 1. f_equal.
    rewrite (drop_S _ _ _ Hsplit). f_equal.
    replace (S (2 * k)) with (2 * k + 1) by lia.
    rewrite (drop_S _ _ _ Hcmd). do 2 f_equal. lia.
  - apply dec_stable. exact Hreq.
Qed.

(** X3. Whatever [parse_plugin_args] accepts is an invocation: the vector
    is the name/value pairs of the fields returned, the splitter, the
    command and the command arguments, in this order; every name is
    recognized and every required field is among them. *)
Theorem parse_plugin_args_accepts_invocations
    (required_fields optional_fields : gset string) (args : list string)
    (fields : gmap string string) (command : string) (command_args : list string) :
  parse_plugin_args required_fields optional_fields args
  = Ok (fields, command, command_args) →
  ∃ pairs,
    args = plugin_argv pairs command command_args
    ∧ fields = dict_of pairs
    ∧ Forall (λ p, p.1 ∈ required_fields ∪ optional_fields) pairs
    ∧ required_fields ⊆ dom fields
    ∧ dom fields ⊆ required_fields ∪ optional_fields.
Proof.
  intros (pairs & Hargs & Hfields & Hrecognized & Hreq)%parse_plugin_args_Ok_pairs.
  exists pairs. split; [done|]. split; [done|]. split; [done|]. split.
  - by apply (required_present (dom fields) required_fields).
  - rewrite Hfields, dom_dict_of. intros name Hname.
    apply elem_of_list_to_set, list_elem_of_fmap in Hname as (p & -> & Hp).
    by eapply Forall_forall in Hrecognized.
Qed.

Lemma parse_plugin_args_accepts_invocations_witness :
  ∃ pairs,
    ["url"; "--"; "--"; "reup"; "c"] = plugin_argv pairs "reup" ["c"]
    ∧ ({["url" := "--"]} : gmap string string) = dict_of pairs
    ∧ Forall (λ p, p.1 ∈ git_required ∪ git_optional) pairs
    ∧ git_required ⊆ dom ({["url" := "--"]} : gmap string string)
    ∧ dom ({["url" := "--"]} : gmap string string) ⊆ git_required ∪ git_optional.
Proof.
  apply (parse_plugin_args_accepts_invocations git_required git_optional
           ["url"; "--"; "--"; "reup"; "c"] {["url" := "--"]} "reup" ["c"]).
  by vm_compute.
Defined.

Lemma parse_fields_Raise all_fields pairs : ∀ d e,
  parse_fields all_fields pairs d = Raise e →
  ∃ name, e = BadFieldsError (UnrecognizedFieldName name).
Proof.
  induction pairs as [|[name val] pairs IH]; intros d e H; [done|].
  simpl in H. destruct (decide (name ∈ all_fields)); [by eapply IH|].
  injection H as <-. by exists name.
Qed.

(** X4. [parse_plugin_args] never raises BadFieldsError("uneven plugin
    fields"): the splitter is only looked for at even positions, so the
    arguments in front of it always pair up. *)
Theorem parse_plugin_args_never_uneven
    (required_fields optional_fields : gset string) (args : list string) :
  is_uneven_error (parse_plugin_args required_fields optional_fields args) = false.
Proof.
  unfold parse_plugin_args.
  destruct (find_splitter args 0) as [s|] eqn:Hs; [|done].
  apply find_splitter_is_splitter in Hs.
  rewrite (field_args_even args s Hs).
  replace (negb (Nat.eqb 0 0)) with false by done. cbv iota.
  unfold subscript. destruct (args !! (s + 1)) as [command|]; [|done].
  destruct (parse_fields _ _ ∅) as [d|e] eqn:Hfields.
  - by destruct (decide _).
  - by apply parse_fields_Raise in Hfields as [name ->].
Qed.

End plugin_shared.

(** ** peru/plugins/git_plugin.py *)

Module git_plugin.

(** *** Text and paths

    Text is a [string] whose characters stand for code points below 256. *)

(** [str.isspace] on such a character. *)
Definition isspace (c : ascii) : bool :=
  let n := nat_of_ascii c in
  (Nat.leb 9 n && Nat.leb n 13) || (Nat.leb 28 n && Nat.leb n 32)
  || Nat.eqb n 133 || Nat.eqb n 160.

Fixpoint lstrip (s : string) : string :=
  match s with
  | EmptyString => EmptyString
  | String c s' => if isspace c then lstrip s' else s
  end.

Definition rstrip (s : string) : string := String.rev (lstrip (String.rev s)).

(** [s.strip()] *)
Definition strip (s : string) : string := rstrip (lstrip s).

(** [s.split()]: the maximal runs of non-space characters; [cur] is the run
    being read, kept in reverse. *)
Fixpoint split_go (cur : option string) (s : string) : list string :=
  match s with
  | EmptyString => option_list (String.rev <$> cur)
  | String c s' =>
      if isspace c then option_list (String.rev <$> cur) ++ split_go None s'
      else split_go (Some (String c (default EmptyString cur))) s'
  end.

Definition split (s : string) : list string := split_go None s.

(** [sep.join(l)] *)
Fixpoint join (sep : string) (l : list string) : string :=
  match l with
  | [] => ""
  | [x] => x
  | x :: rest => x +:+ sep +:+ join sep rest
  end.

(** The characters [urllib.parse.quote] never escapes: letters, digits and
    "_.-~". With [safe=""] nothing else is kept, "/" included. *)
Definition always_safe (c : ascii) : bool :=
  let n := nat_of_ascii c in
  (Nat.leb 65 n && Nat.leb n 90) || (Nat.leb 97 n && Nat.leb n 122)
  || (Nat.leb 48 n && Nat.leb n 57)
  || Nat.eqb n 95 || Nat.eqb n 46 || Nat.eqb n 45 || Nat.eqb n 126.

Definition hex_digit (n : nat) : ascii :=
  default "0"%char (String.list_ascii_of_string "0123456789ABCDEF" !! n).

(** "%XX" for the byte [b]. *)
Definition percent (b : nat) : string :=
  String "%" (String (hex_digit (b / 16)) (String (hex_digit (b mod 16)) "")).

(** One character of [quote(url, safe="")]: kept, or the bytes of its UTF-8
    encoding (one below 128, two from 128 to 255), each as "%XX". *)
Definition quote_char (c : ascii) : string :=
  let n := nat_of_ascii c in
  if always_safe c then String c ""
  else if Nat.ltb n 128 then percent n
  else percent (192 + n / 64) +:+ percent (128 + n mod 64).

Fixpoint quote (s : string) : string :=
  match s with
  | EmptyString => ""
  | String c s' => quote_char c +:+ quote s'
  end.

(** Reading an escaped URL back: "%XX" is the byte XX, and the two bytes of a
    character from 128 to 255 are put together again. [quote] is not read
    back anywhere in the plugin; this is what shows that it loses nothing. *)
Definition hex_value (c : ascii) : nat :=
  let n := nat_of_ascii c in
  if Nat.leb 48 n && Nat.leb n 57 then n - 48
  else if Nat.leb 65 n && Nat.leb n 70 then n - 55
  else 0.

Fixpoint unquote (s : string) : string :=
  match s with
  | EmptyString => ""
  | String c rest =>
      if Ascii.eqb c "%" then
        match rest with
        | String h (String l rest') =>
            let b := 16 * hex_value h + hex_value l in
            if Nat.ltb b 128 then String (ascii_of_nat b) (unquote rest')
            else
              match rest' with
              | String _ (String h2 (String l2 rest'')) =>
                  let b2 := 16 * hex_value h2 + hex_value l2 in
                  String (ascii_of_nat ((b - 192) * 64 + (b2 - 128))) (unquote rest'')
              | _ => ""
              end
        | _ => ""
        end
      else String c (unquote rest)
  end.

(** Whether a "/" occurs in [s]. *)
Fixpoint has_sep (s : string) : bool :=
  match s with
  | EmptyString => false
  | String c s' => Ascii.eqb c "/" || has_sep s'
  end.

Definition startswith_sep (s : string) : bool :=
  match s with String "/" _ => true | _ => false end.

Fixpoint endswith_sep (s : string) : bool :=
  match s with
  | EmptyString => false
  | String c EmptyString => Ascii.eqb c "/"
  | String _ s' => endswith_sep s'
  end.

(** [os.path.join(a, b)] (posixpath) *)
Definition path_join (a b : string) : string :=
  if startswith_sep b then b
  else if bool_decide (a = "") || endswith_sep a then a +:+ b
  else a +:+ "/" +:+ b.

Definition repo_cache_path (url cache_root : string) : string :=
  let escaped := quote url in
  path_join cache_root escaped.

(** *** The file system

    An entry is named by the list of its "/"-separated components; empty
    components do not count, and "." and ".." are names like any other.
    The entry without components is the root, which is always there. *)

Inductive kind : Type := File | Dir.

#[global] Instance kind_eq_dec : EqDecision kind.
Proof. solve_decision. Defined.

Fixpoint split_sep (s cur : string) : list string :=
  match s with
  | EmptyString => [String.rev cur]
  | String c s' =>
      if Ascii.eqb c "/" then String.rev cur :: split_sep s' ""
      else split_sep s' (String c cur)
  end.

Definition components (p : string) : list string :=
  filter (λ x, x ≠ "") (split_sep p "").

Definition entry (fs : gmap (list string) kind) (p : string) : option kind :=
  if decide (p = "") then None
  else if decide (components p = []) then Some Dir
  else fs !! components p.

(** [os.path.exists(p)], [os.path.isdir(p)] *)
Definition path_exists (fs : gmap (list string) kind) (p : string) : bool :=
  bool_decide (is_Some (entry fs p)).

Definition path_isdir (fs : gmap (list string) kind) (p : string) : bool :=
  bool_decide (entry fs p = Some Dir).

(** The non-empty prefixes of a component list, shortest first. *)
Definition prefixes (q : list string) : list (list string) :=
  (λ n, take n q) <$> seq 1 (length q).

(** [os.makedirs(p)]: the leaf and every missing directory above it are
    created. It raises when [p] is empty, when the leaf exists, and when
    something above the leaf is not a directory. *)
Definition makedirs (p : string) (fs : gmap (list string) kind)
    : result (gmap (list string) kind) :=
  if decide (p = "") then Raise (OSError "FileNotFoundError")
  else if decide (is_Some (entry fs p)) then Raise (OSError "FileExistsError")
  else if decide (Exists (λ q, fs !! q = Some File) (prefixes (components p)))
  then Raise (OSError "NotADirectoryError")
  else Ok (fs ∪ list_to_map ((λ q, (q, Dir)) <$> prefixes (components p))).

(** What is left of [fs] without the entry [q] and everything below it. *)
Definition remove_tree (q : list string) (fs : gmap (list string) kind)
    : gmap (list string) kind :=
  filter (λ e, ¬ q `prefix_of` e.1) fs.

(** [shutil.rmtree(p)]: raises unless [p] is a directory. *)
Definition rmtree (p : string) (fs : gmap (list string) kind)
    : result (gmap (list string) kind) :=
  match entry fs p with
  | None => Raise (OSError "FileNotFoundError")
  | Some File => Raise (OSError "NotADirectoryError")
  | Some Dir => Ok (remove_tree (components p) fs)
  end.

(** *** The plugin

    [E] is whatever else the outside world holds (the network, the content
    of files). [process command e fs] is [subprocess.Popen(command, ...)]
    followed by [communicate()]: the return code and the merged output of
    the child, and the world it leaves. [read_gitmodules path e] is what
    [configparser] reads from the file: the "path" and "url" of each
    section, in order. *)

Section fetch_job.

Context {E : Type}.

Record world : Type := World {
  fs : gmap (list string) kind;
  stdout : list string;
  spawned : list (list string);
  env : E
}.

Variable process :
  list string → E → gmap (list string) kind →
  Z * string * E * gmap (list string) kind.
Variable read_gitmodules : string → E → list (string * string).

(** Python's bound on nested calls, counted in calls of [checkout_tree]. *)
Variable recursion_limit : nat.

Definition set_fs (fs' : gmap (list string) kind) (w : world) : world :=
  World fs' (stdout w) (spawned w) (env w).

(** [print(line)] *)
Definition print (line : string) (w : world) : world :=
  World (fs w) (stdout w ++ [line]) (spawned w) (env w).

Definition newline : string := String "010" "".

(** The argument vector [git] builds. *)
Definition git_command (args : list string) (git_dir : option string) : list string :=
  ["git"]
  ++ match git_dir with
     | Some d => if bool_decide (d = "") then [] else ["--git-dir=" +:+ d]
     | None => []
     end
  ++ args.

Definition git (args : list string) (git_dir : option string) (w : world)
    : result string * world :=
  if negb match git_dir with
          | None => true
          | Some d => path_isdir (fs w) d
          end
  then (Raise (AssertionError ""), w)
  else
    let command := git_command args git_dir in
    let '(returncode, output, e', fs') := process command (env w) (fs w) in
    let w' := World fs' (stdout w) (spawned w ++ [command]) e' in
    if negb (returncode =? 0)%Z
    then (Raise (RuntimeError
                   ("Command exited with error code " +:+ pretty returncode
                    +:+ ":" +:+ newline +:+ "$ " +:+ join " " command
                    +:+ newline +:+ output)), w')
    else (Ok output, w').

(** [if log_fn: log_fn()] *)
Definition call_log_fn (log_fn : option (world → result unit * world)) (w : world)
    : result unit * world :=
  match log_fn with
  | Some f => f w
  | None => (Ok (), w)
  end.

Definition git_clone_if_needed (url cache_path : string)
    (log_fn : option (world → result unit * world)) (w : world)
    : result string * world :=
  let repo_path := repo_cache_path url cache_path in
  if negb (path_exists (fs w) repo_path) then
    match makedirs repo_path (fs w) with
    | Raise e => (Raise e, w)
    | Ok fs1 =>
        let w1 := set_fs fs1 w in
        (* try: *)
        let '(logged, w2) := call_log_fn log_fn w1 in
        let '(cloned, w3) :=
          match logged with
          | Ok _ =>
              match git ["clone"; "--mirror"; url; repo_path] None w2 with
              | (Ok _, w') => (Ok (), w')
              | (Raise e, w') => (Raise e, w')
              end
          | Raise e => (Raise e, w2)
          end in
        match cloned with
        | Ok _ => (Ok repo_path, w3)
        | Raise e =>
            (* except: rmtree, then raise *)
            match rmtree repo_path (fs w3) with
            | Ok fs4 => (Raise e, set_fs fs4 w3)
            | Raise e' => (Raise e', w3)
            end
        end
    end
  else (Ok repo_path, w).

Record FetchJob : Type := {
  cache_path : string;
  dest : string;
  url : string;
  rev : string
}.

Definition log (self : FetchJob) (command : string) (w : world) : world :=
  print ("git " +:+ command +:+ " " +:+ url self) w.

Definition git_clone_cached (self : FetchJob) (url : string) (w : world)
    : result string * world :=
  let log_fn := λ w, (Ok (), log self "clone" w) in
  git_clone_if_needed url (cache_path self) (Some log_fn) w.

Definition git_already_has_rev (self : FetchJob) (repo rev : string) (w : world)
    : bool * world :=
  match git ["cat-file"; "-e"; rev] (Some repo) w with
  | (Raise _, w1) => (false, w1)
  | (Ok _, w1) =>
      match git ["rev-parse"; rev] (Some repo) w1 with
      | (Raise _, w2) => (false, w2)
      | (Ok output, w2) => (bool_decide (strip output = rev), w2)
      end
  end.

(** The loop of [handle_subrepos] over the sections still to do;
    [checkout_tree] is the method it calls back. *)
Fixpoint handle_sections (self : FetchJob)
    (checkout_tree : string → string → string → world → result unit * world)
    (clone_path rev work_tree : string) (sections : list (string * string))
    (w : world) : result unit * world :=
  match sections with
  | [] => (Ok (), w)
  | (sub_relative_path, sub_url) :: sections' =>
      let sub_full_path := path_join work_tree sub_relative_path in
      match git_clone_cached self sub_url w with
      | (Raise e, w1) => (Raise e, w1)
      | (Ok sub_clone, w1) =>
          match git ["ls-tree"; "-r"; rev; sub_relative_path] (Some clone_path) w1 with
          | (Raise e, w2) => (Raise e, w2)
          | (Ok ls_tree, w2) =>
              match subscript (split ls_tree) 2 with
              | Raise e => (Raise e, w2)
              | Ok sub_rev =>
                  match checkout_tree sub_clone sub_rev sub_full_path w2 with
                  | (Raise e, w3) => (Raise e, w3)
                  | (Ok _, w3) =>
                      handle_sections self checkout_tree clone_path rev
                        work_tree sections' w3
                  end
              end
          end
      end
  end.

Definition handle_subrepos (self : FetchJob)
    (checkout_tree : string → string → string → world → result unit * world)
    (clone_path rev work_tree : string) (w : world) : result unit * world :=
  let gitmodules := path_join work_tree ".gitmodules" in
  if negb (path_exists (fs w) gitmodules) then (Ok (), w)
  else handle_sections self checkout_tree clone_path rev work_tree
         (read_gitmodules gitmodules (env w)) w.

(** [depth] calls of [checkout_tree] may still nest. *)
Fixpoint checkout_tree (self : FetchJob) (depth : nat) (clone rev dest : string)
    (w : world) : result unit * world :=
  match depth with
  | 0 => (Raise RecursionError, w)
  | S depth' =>
      let w1 := log self "checkout" w in
      match git ["--work-tree=" +:+ dest; "checkout"; rev; "--"; "."]
              (Some clone) w1 with
      | (Raise e, w2) => (Raise e, w2)
      | (Ok _, w2) =>
          handle_subrepos self (checkout_tree self depth') clone rev dest w2
      end
  end.

Definition run (self : FetchJob) (w : world) : result unit * world :=
  match git_clone_cached self (url self) w with
  | (Raise e, w1) => (Raise e, w1)
  | (Ok cached_dir, w1) =>
      let '(has_rev, w2) := git_already_has_rev self cached_dir (rev self) w1 in
      let '(fetched, w3) :=
        if negb has_rev
        then git ["fetch"; "--prune"] (Some cached_dir) (log self "fetch" w2)
        else (Ok "", w2) in
      match fetched with
      | Raise e => (Raise e, w3)
      | Ok _ =>
          checkout_tree self recursion_limit cached_dir (rev self) (dest self) w3
      end
  end.

(** The [while sys.argv[0] != "--"] loop of [main]: the fields read so
    far, and [sys.argv] when the loop ends. [sys.argv[0]] and
    [sys.argv.pop(0)] raise IndexError on an empty list. *)
Fixpoint read_fields (argv : list string) (url : option string)
    (rev reup_target : string) (reup_specified : bool)
    : result (option string * string * string * bool * list string) :=
  match argv with
  | [] => Raise IndexError
  | name :: argv' =>
      if String.eqb name "--" then Ok (url, rev, reup_target, reup_specified, argv)
      else
        match argv' with
        | [] => Raise IndexError
        | val :: argv'' =>
            if String.eqb name "url"
            then read_fields argv'' (Some val) rev reup_target reup_specified
            else if String.eqb name "rev"
            then read_fields argv'' url val reup_target reup_specified
            else if String.eqb name "reup"
            then read_fields argv'' url rev val true
            else Raise (RuntimeError ("Unknown plugin field name: " +:+ name))
        end
  end.

(** [main], with [sys.argv] as an argument. *)
Definition main (argv : list string) (w : world) : result unit * world :=
  match argv with
  | [] => (Raise IndexError, w)
  | _ :: argv =>
      match read_fields argv None "master" "master" false with
      | Raise e => (Raise e, w)
      | Ok (None, _, _, _, _) => (Raise (AssertionError ""), w)
      | Ok (Some url, rev, reup_target, reup_specified, argv) =>
          (* the loop ended on "--" *)
          match tail argv with
          | [] => (Raise IndexError, w)
          | command :: argv =>
              if String.eqb command "fetch" then
                match argv with
                | [dest; cache_path] =>
                    run {| cache_path := cache_path; dest := dest;
                           url := url; rev := rev |} w
                | [] | [_] => (Raise IndexError, w)
                | _ => (Raise (AssertionError ""), w)
                end
              else if String.eqb command "reup" then
                match argv with
                | [cache_path] =>
                    match git_clone_if_needed url cache_path None w with
                    | (Raise e, w1) => (Raise e, w1)
                    | (Ok clone, w1) =>
                        match git ["fetch"; "--prune"] (Some clone) w1 with
                        | (Raise e, w2) => (Raise e, w2)
                        | (Ok _, w2) =>
                            match git ["rev-parse"; reup_target] (Some clone) w2 with
                            | (Raise e, w3) => (Raise e, w3)
                            | (Ok output, w3) =>
                                let new_rev := strip output in
                                let w4 := print ("url: " +:+ url) w3 in
                                let w5 := if reup_specified
                                          then print ("reup: " +:+ reup_target) w4
                                          else w4 in
                                (Ok (), print ("rev: " +:+ new_rev) w5)
                            end
                        end
                    end
                | [] => (Raise IndexError, w)
                | _ => (Raise (AssertionError ""), w)
                end
              else (Raise (RuntimeError ("Unknown command: " +:+ command)), w)
          end
      end
  end.

(** *** Notions used in the statements *)

(** [fs'] differs from [fs] at or below [q] only. *)
Definition only_below (q : list string) (fs fs' : gmap (list string) kind) : Prop :=
  ∀ e, ¬ q `prefix_of` e → fs' !! e = fs !! e.

(** The cached clone at [cached_dir] holds [rev], and [rev] is a full hash:
    [git cat-file -e rev] exits with 0, and so does [git rev-parse rev],
    whose output, stripped, is [rev] itself. (Each call of [git] first
    asserts that [cached_dir] is a directory.) *)
Definition contains_full_hash (cached_dir rev : string) (w : world) : Prop :=
  path_isdir (fs w) cached_dir = true ∧
  let '(rc1, _, e1, fs1) :=
    process (git_command ["cat-file"; "-e"; rev] (Some cached_dir)) (env w) (fs w) in
  rc1 = 0%Z ∧ path_isdir fs1 cached_dir = true ∧
  let '(rc2, output, _, _) :=
    process (git_command ["rev-parse"; rev] (Some cached_dir)) e1 fs1 in
  rc2 = 0%Z ∧ strip output = rev.

(** [git fetch --prune] on some clone. *)
Definition is_fetch (command : list string) : bool :=
  match command with
  | [g; _; f; p] => bool_decide (g = "git" ∧ f = "fetch" ∧ p = "--prune")
  | _ => false
  end.

(** From [w] to [w'] the commands [cmds] were spawned, none a fetch. *)
Definition no_fetch (w w' : world) : Prop :=
  ∃ cmds, spawned w' = spawned w ++ cmds ∧ Forall (λ c, is_fetch c = false) cmds.

(** The names [main] knows. *)
Definition git_fields : gset string :=
  plugin_shared.git_required ∪ plugin_shared.git_optional.

(** [read_fields] continued from the fields [d] read so far. *)
Definition read_fields_from (argv : list string) (d : gmap string string)
    : result (option string * string * string * bool * list string) :=
  read_fields argv (d !! "url") (default "master" (d !! "rev"))
    (default "master" (d !! "reup")) (bool_decide (is_Some (d !! "reup"))).

(** A line [log] prints for the job. *)
Definition job_line (self : FetchJob) (line : string) : Prop :=
  ∃ command, command ∈ ["clone"; "fetch"; "checkout"]
             ∧ line = "git " +:+ command +:+ " " +:+ url self.

(** From [w] to [w'] only such lines were printed. *)
Definition logs_only (self : FetchJob) (w w' : world) : Prop :=
  ∃ lines, stdout w' = stdout w ++ lines ∧ Forall (job_line self) lines.

(** *** The cache of clones *)

Lemma remove_tree_below q fs0 e :
  q `prefix_of` e → remove_tree q fs0 !! e = None.
Proof.
  intros Hpre. unfold remove_tree. apply map_lookup_filter_None.
  right. intros x _ Hnot. by apply Hnot.
Qed.

Lemma remove_tree_elsewhere q fs0 e :
  ¬ q `prefix_of` e → remove_tree q fs0 !! e = fs0 !! e.
Proof.
  intros Hpre. unfold remove_tree. destruct (fs0 !! e) as [k|] eqn:He.
  - by apply map_lookup_filter_Some.
  - apply map_lookup_filter_None. by left.
Qed.

Lemma path_exists_remove_tree p fs0 fs' :
  path_exists fs0 p = false → path_isdir fs' p = true →
  path_exists (remove_tree (components p) fs') p = false.
Proof.
  unfold path_exists, path_isdir, entry.
  intros Hnot%bool_decide_eq_false Hdir%bool_decide_eq_true.
  apply bool_decide_eq_false.
  destruct (decide (p = "")); [done|].
  destruct (decide (components p = [])); [by destruct Hnot|].
  rewrite remove_tree_below by done. by intros [? ?].
Qed.

Lemma remove_tree_restores q fs0 fs' :
  only_below q fs0 fs' → (∀ e, q `prefix_of` e → fs0 !! e = None) →
  remove_tree q fs' = fs0.
Proof.
  intros Hframe Hnone. apply map_eq. intros e.
  destruct (decide (q `prefix_of` e)) as [Hpre|Hpre].
  - rewrite remove_tree_below by done. symmetry. by apply Hnone.
  - rewrite remove_tree_elsewhere by done. by apply Hframe.
Qed.

Lemma rmtree_dir p fs0 :
  path_isdir fs0 p = true → rmtree p fs0 = Ok (remove_tree (components p) fs0).
Proof.
  unfold path_isdir, rmtree. intros H%bool_decide_eq_true. by rewrite H.
Qed.



(** *** Fetching *)

Lemma no_fetch_refl w w' : spawned w' = spawned w → no_fetch w w'.
Proof. intros H. exists []. by rewrite H, app_nil_r. Qed.

Lemma no_fetch_trans w1 w2 w3 : no_fetch w1 w2 → no_fetch w2 w3 → no_fetch w1 w3.
Proof.
  intros (c1 & H1 & F1) (c2 & H2 & F2). exists (c1 ++ c2).
  split; [by rewrite H2, H1, <- app_assoc | by apply Forall_app].
Qed.

Lemma git_spawned args git_dir w :
  spawned (git args git_dir w).2 = spawned w
  ∨ spawned (git args git_dir w).2 = spawned w ++ [git_command args git_dir].
Proof.
  unfold git. destruct (negb _); [by left|].
  destruct (process _ _ _) as [[[rc out] e'] fs'].
  destruct (negb _); by right.
Qed.

Lemma git_spawned_dir args d w :
  path_isdir (fs w) d = true →
  spawned (git args (Some d) w).2 = spawned w ++ [git_command args (Some d)].
Proof.
  intros Hdir. unfold git. rewrite Hdir. simpl.
  destruct (process _ _ _) as [[[rc out] e'] fs'].
  by destruct (negb _).
Qed.

Lemma git_no_fetch args git_dir w :
  is_fetch (git_command args git_dir) = false → no_fetch w (git args git_dir w).2.
Proof.
  intros Hcmd. destruct (git_spawned args git_dir w) as [H|H].
  - by apply no_fetch_refl.
  - eexists. split; [exact H|]. by constructor.
Qed.

Lemma git_clone_if_needed_no_fetch url0 cache_path0 log_fn w :
  (∀ f w0, log_fn = Some f → spawned (f w0).2 = spawned w0) →
  no_fetch w (git_clone_if_needed url0 cache_path0 log_fn w).2.
Proof.
  intros Hlog. unfold git_clone_if_needed.
  destruct (negb _); [|by apply no_fetch_refl].
  destruct (makedirs _ _) as [fs1|e]; [|by apply no_fetch_refl].
  destruct (call_log_fn log_fn (set_fs fs1 w)) as [logged w2] eqn:Hcall.
  assert (spawned w2 = spawned w) as Hw2.
  { destruct log_fn as [f|]; simpl in Hcall.
    - specialize (Hlog f (set_fs fs1 w) eq_refl). by rewrite Hcall in Hlog.
    - by inversion Hcall. }
  destruct logged as [[]|e].
  - pose proof (git_no_fetch ["clone"; "--mirror"; url0;
        repo_cache_path url0 cache_path0] None w2 eq_refl) as Hgit.
    destruct (git _ None w2) as [[out|e] w3]; simpl in *.
    + apply (no_fetch_trans _ w2); [by apply no_fetch_refl | done].
    + apply (no_fetch_trans _ w2); [by apply no_fetch_refl |].
      destruct (rmtree _ _); simpl; [|done].
      destruct Hgit as (c & Hc & Fc). by exists c.
  - destruct (rmtree _ _); simpl; by apply no_fetch_refl.
Qed.

Lemma git_clone_cached_no_fetch self url0 w :
  no_fetch w (git_clone_cached self url0 w).2.
Proof.
  apply git_clone_if_needed_no_fetch. intros f w0 [= <-]. done.
Qed.

Lemma is_fetch_longer a b c d e rest git_dir :
  is_fetch (git_command (a :: b :: c :: d :: e :: rest) (Some git_dir)) = false.
Proof. unfold git_command. by destruct (bool_decide _). Qed.

Lemma is_fetch_ls_tree a b c git_dir :
  is_fetch (git_command ["ls-tree"; a; b; c] (Some git_dir)) = false.
Proof. unfold git_command. by destruct (bool_decide _). Qed.

Lemma handle_sections_no_fetch self checkout clone_path rev0 work_tree sections :
  (∀ c r d w, no_fetch w (checkout c r d w).2) →
  ∀ w, no_fetch w (handle_sections self checkout clone_path rev0 work_tree sections w).2.
Proof.
  intros Hcheckout.
  induction sections as [|[sub_relative_path sub_url] sections IH]; intros w; simpl.
  - by apply no_fetch_refl.
  - pose proof (git_clone_cached_no_fetch self sub_url w) as H1.
    destruct (git_clone_cached self sub_url w) as [[sub_clone|e] w1]; [|done].
    pose proof (git_no_fetch ["ls-tree"; "-r"; rev0; sub_relative_path]
                  (Some clone_path) w1 (is_fetch_ls_tree _ _ _ _)) as H2.
    destruct (git _ (Some clone_path) w1) as [[ls_tree|e] w2];
      [|by apply (no_fetch_trans _ w1)].
    assert (no_fetch w w2) as H12 by by apply (no_fetch_trans _ w1).
    destruct (subscript (split ls_tree) 2) as [sub_rev|e]; [|done].
    pose proof (Hcheckout sub_clone sub_rev
                  (path_join work_tree sub_relative_path) w2) as H3.
    destruct (checkout _ _ _ w2) as [[[]|e] w3];
      [|by apply (no_fetch_trans _ w2)].
    apply (no_fetch_trans _ w3); [by apply (no_fetch_trans _ w2) | apply IH].
Qed.

Lemma checkout_tree_no_fetch self depth : ∀ clone rev0 dest0 w,
  no_fetch w (checkout_tree self depth clone rev0 dest0 w).2.
Proof.
  induction depth as [|depth IH]; intros clone rev0 dest0 w; simpl.
  - by apply no_fetch_refl.
  - pose proof (git_no_fetch ["--work-tree=" +:+ dest0; "checkout"; rev0; "--"; "."]
                  (Some clone) (log self "checkout" w)
                  (is_fetch_longer _ _ _ _ _ _ _)) as H1.
    destruct (git _ (Some clone) _) as [[out|e] w2]; simpl in *.
    + apply (no_fetch_trans _ w2); [done|].
      unfold handle_subrepos. destruct (negb _); [by apply no_fetch_refl|].
      by apply handle_sections_no_fetch.
    + done.
Qed.

Lemma path_isdir_nonempty fs0 d : path_isdir fs0 d = true → d ≠ "".
Proof.
  unfold path_isdir, entry. intros H%bool_decide_eq_true ->. done.
Qed.

Lemma is_fetch_fetch d :
  d ≠ "" → is_fetch (git_command ["fetch"; "--prune"] (Some d)) = true.
Proof.
  intros Hd. unfold git_command. rewrite bool_decide_eq_false_2 by done.
  reflexivity.
Qed.

Lemma is_fetch_probe a b c git_dir :
  a ≠ "fetch" → b ≠ "fetch" →
  is_fetch (git_command (a :: b :: c) (Some git_dir)) = false.
Proof.
  intros Ha Hb. unfold git_command. destruct (bool_decide _); simpl.
  - destruct c as [|? [|? ?]]; try done. apply bool_decide_eq_false. tauto.
  - destruct c as [|? [|? ?]]; try done. apply bool_decide_eq_false. tauto.
Qed.

Lemma git_already_has_rev_no_fetch self repo rev0 w :
  no_fetch w (git_already_has_rev self repo rev0 w).2.
Proof.
  unfold git_already_has_rev.
  assert ("cat-file" ≠ "fetch" ∧ "-e" ≠ "fetch") as [Hc He] by done.
  pose proof (git_no_fetch ["cat-file"; "-e"; rev0] (Some repo) w
                (is_fetch_probe _ _ _ _ Hc He)) as H1.
  destruct (git _ (Some repo) w) as [[out|e] w1]; [|done].
  pose proof (git_no_fetch ["rev-parse"; rev0] (Some repo) w1) as H2.
  destruct (git _ (Some repo) w1) as [[out2|e] w2]; simpl in *;
    (apply (no_fetch_trans _ w1); [done|]); apply H2;
    unfold git_command; destruct (bool_decide _); try done;
    simpl; apply bool_decide_eq_false; intros (_ & ? & _); done.
Qed.

Lemma git_already_has_rev_full_hash self cached_dir rev0 w :
  (git_already_has_rev self cached_dir rev0 w).1 = true
  ↔ contains_full_hash cached_dir rev0 w.
Proof.
  unfold git_already_has_rev, contains_full_hash, git.
  destruct (path_isdir (fs w) cached_dir) eqn:Hdir; simpl;
    [|split; [done | by intros [? _]]].
  destruct (process _ (env w) (fs w)) as [[[rc1 out1] e1] fs1].
  destruct (rc1 =? 0)%Z eqn:Hrc1; simpl.
  2:{ apply Z.eqb_neq in Hrc1. split; [done | by intros (_ & ? & _)]. }
  apply Z.eqb_eq in Hrc1.
  destruct (path_isdir fs1 cached_dir) eqn:Hdir1; simpl;
    [|split; [done | by intros (_ & _ & ? & _)]].
  destruct (process _ e1 fs1) as [[[rc2 out2] e2] fs2].
  destruct (rc2 =? 0)%Z eqn:Hrc2; simpl.
  2:{ apply Z.eqb_neq in Hrc2. split; [done | by intros (_ & _ & _ & ? & _)]. }
  apply Z.eqb_eq in Hrc2. rewrite bool_decide_eq_true. tauto.
Qed.

(** C9. Once the mirror is cached at [cached_dir], [run] calls
    [git fetch --prune] on it unless the cached clone holds the revision
    and the revision is a full hash ([contains_full_hash]). With a full
    hash [run] goes straight to [checkout_tree] and no fetch is spawned
    anywhere in the job; otherwise [git("fetch", "--prune")] is called in
    the world the two probes left and [checkout_tree] only starts, if the
    fetch succeeds, in the world the fetch left. As long as [cached_dir] is
    still a directory the fetch command is the first one spawned after the
    probes, and the only fetch of the job. *)
Theorem run_fetches_unless_full_hash (self : FetchJob) (w : world)
    (cached_dir : string) (w1 : world) :
  git_clone_cached self (url self) w = (Ok cached_dir, w1) →
  let w2 := (git_already_has_rev self cached_dir (rev self) w1).2 in
  let fetch := git ["fetch"; "--prune"] (Some cached_dir) (log self "fetch" w2) in
  let checkout :=
    checkout_tree self recursion_limit cached_dir (rev self) (dest self) in
  no_fetch w w2 ∧
  (contains_full_hash cached_dir (rev self) w1 →
     run self w = checkout w2 ∧ no_fetch w (run self w).2) ∧
  (¬ contains_full_hash cached_dir (rev self) w1 →
     run self w = match fetch.1 with
                  | Ok _ => checkout fetch.2
                  | Raise e => (Raise e, fetch.2)
                  end
     ∧ (path_isdir (fs w2) cached_dir = true →
        is_fetch (git_command ["fetch"; "--prune"] (Some cached_dir)) = true
        ∧ ∃ after,
            spawned (run self w).2
            = spawned w2 ++ git_command ["fetch"; "--prune"] (Some cached_dir) :: after
            ∧ Forall (λ c, is_fetch c = false) after)).
Proof.
  intros Hclone w2 fetch checkout.
  assert (no_fetch w w2) as Hw2.
  { apply (no_fetch_trans _ w1).
    - pose proof (git_clone_cached_no_fetch self (url self) w) as H.
      by rewrite Hclone in H.
    - apply git_already_has_rev_no_fetch. }
  split; [done|].
  pose proof (git_already_has_rev_full_hash self cached_dir (rev self) w1) as Hiff.
  unfold run. rewrite Hclone. subst w2 fetch.
  destruct (git_already_has_rev self cached_dir (rev self) w1) as [has w2].
  simpl in *. split.
  - intros Hfull. apply Hiff in Hfull. subst has. simpl. split; [done|].
    apply (no_fetch_trans _ w2); [done|]. apply checkout_tree_no_fetch.
  - intros Hnot. destruct has; [exfalso; by apply Hnot, Hiff|]. simpl.
    destruct (git _ (Some cached_dir) (log self "fetch" w2)) as [fetched w3] eqn:Hfetch.
    simpl. split; [by destruct fetched|].
    intros Hdir. split; [by eapply is_fetch_fetch, path_isdir_nonempty|].
    pose proof (git_spawned_dir ["fetch"; "--prune"] cached_dir
                  (log self "fetch" w2) Hdir) as Hsp.
    rewrite Hfetch in Hsp. simpl in Hsp.
    destruct fetched as [out|e]; simpl.
    + destruct (checkout_tree_no_fetch self recursion_limit cached_dir
                  (rev self) (dest self) w3) as (after & Hafter & Fafter).
      exists after. split; [|done].
      by rewrite Hafter, Hsp, <- app_assoc.
    + exists []. by split.
Qed.

(** *** More on the cache of clones, on submodules and on what is printed *)

(** X7. A failure of [log_fn] is handled like a failure of the clone: the
    directory just made is removed, the error is raised again, and git is
    not run. *)
Theorem git_clone_if_needed_log_fn_fails (url0 cache_path0 : string)
    (log_fn : world → result unit * world) (w : world)
    (fs1 : gmap (list string) kind) (e : exn) (w2 : world) :
  let repo_path := repo_cache_path url0 cache_path0 in
  path_exists (fs w) repo_path = false →
  makedirs repo_path (fs w) = Ok fs1 →
  log_fn (set_fs fs1 w) = (Raise e, w2) →
  path_isdir (fs w2) repo_path = true →
  git_clone_if_needed url0 cache_path0 (Some log_fn) w
  = (Raise e, set_fs (remove_tree (components repo_path) (fs w2)) w2)
  ∧ spawned (git_clone_if_needed url0 cache_path0 (Some log_fn) w).2 = spawned w2
  ∧ path_exists (fs (git_clone_if_needed url0 cache_path0 (Some log_fn) w).2)
      repo_path = false.
Proof.
  intros repo_path Hnot Hmk Hlog Hdir. unfold git_clone_if_needed.
  fold repo_path. rewrite Hnot, Hmk. simpl. rewrite Hlog.
  rewrite (rmtree_dir _ _ Hdir). simpl.
  split; [done|]. split; [done|]. by eapply path_exists_remove_tree.
Qed.

Lemma handle_sections_app self checkout clone_path rev0 work_tree s1 s2 : ∀ w,
  handle_sections self checkout clone_path rev0 work_tree (s1 ++ s2) w
  = match handle_sections self checkout clone_path rev0 work_tree s1 w with
    | (Ok _, w') => handle_sections self checkout clone_path rev0 work_tree s2 w'
    | (Raise e, w') => (Raise e, w')
    end.
Proof.
  induction s1 as [|[sub_relative_path sub_url] s1 IH]; intros w; [done|].
  cbn [app handle_sections].
  destruct (git_clone_cached self sub_url w) as [[sub_clone|e] w1]; [|done].
  destruct (git _ (Some clone_path) w1) as [[ls_tree|e] w2]; [|done].
  destruct (subscript (split ls_tree) 2) as [sub_rev|e]; [|done].
  destruct (checkout _ _ _ w2) as [[[]|e] w3]; [|done].
  apply IH.
Qed.

(** X8. Submodules are handled one after the other, in the order of the
    sections of .gitmodules, and the first failure ends it: a section
    after a failing one is neither cloned nor checked out. *)
Theorem handle_sections_in_order (self : FetchJob)
    (checkout : string → string → string → world → result unit * world)
    (clone_path rev0 work_tree : string) (done_ failing : string * string)
    (later : list (string * string)) (w w1 w2 : world) (e : exn) :
  handle_sections self checkout clone_path rev0 work_tree [done_] w = (Ok (), w1) →
  handle_sections self checkout clone_path rev0 work_tree [failing] w1 = (Raise e, w2) →
  handle_sections self checkout clone_path rev0 work_tree
    (done_ :: failing :: later) w
  = (Raise e, w2).
Proof.
  intros Hdone Hfailing.
  rewrite (handle_sections_app _ _ _ _ _ [done_] (failing :: later)), Hdone.
  by rewrite (handle_sections_app _ _ _ _ _ [failing] later), Hfailing.
Qed.

Lemma logs_only_refl self w w' : stdout w' = stdout w → logs_only self w w'.
Proof. intros H. exists []. by rewrite H, app_nil_r. Qed.

Lemma logs_only_trans self w1 w2 w3 :
  logs_only self w1 w2 → logs_only self w2 w3 → logs_only self w1 w3.
Proof.
  intros (l1 & H1 & F1) (l2 & H2 & F2). exists (l1 ++ l2).
  split; [by rewrite H2, H1, <- app_assoc | by apply Forall_app].
Qed.

Lemma git_stdout args git_dir w : stdout (git args git_dir w).2 = stdout w.
Proof.
  unfold git. destruct (negb _); [done|].
  destruct (process _ _ _) as [[[rc out] e'] fs'].
  by destruct (negb _).
Qed.

Lemma log_logs_only self command w :
  command ∈ ["clone"; "fetch"; "checkout"] → logs_only self w (log self command w).
Proof.
  intros Hc. eexists. split; [done|]. constructor; [|done]. by exists command.
Qed.

Lemma git_logs_only self args git_dir w : logs_only self w (git args git_dir w).2.
Proof. apply logs_only_refl, git_stdout. Qed.

Lemma git_clone_cached_logs_only self url0 w :
  logs_only self w (git_clone_cached self url0 w).2.
Proof.
  unfold git_clone_cached, git_clone_if_needed.
  destruct (negb _); [|by apply logs_only_refl].
  destruct (makedirs _ _) as [fs1|e]; [|by apply logs_only_refl].
  cbn [call_log_fn].
  assert (logs_only self w (log self "clone" (set_fs fs1 w))) as Hlog.
  { apply (logs_only_trans _ _ (set_fs fs1 w)); [by apply logs_only_refl|].
    apply log_logs_only. by_evaluation. }
  pose proof (git_stdout ["clone"; "--mirror"; url0;
                repo_cache_path url0 (cache_path self)] None
                (log self "clone" (set_fs fs1 w))) as Hgit.
  destruct (git _ None _) as [[out|e] w3]; simpl in *.
  - apply (logs_only_trans _ _ _ _ Hlog). by apply logs_only_refl.
  - apply (logs_only_trans _ _ _ _ Hlog).
    destruct (rmtree _ _); by apply logs_only_refl.
Qed.

Lemma git_already_has_rev_stdout self repo rev0 w :
  stdout (git_already_has_rev self repo rev0 w).2 = stdout w.
Proof.
  unfold git_already_has_rev.
  pose proof (git_stdout ["cat-file"; "-e"; rev0] (Some repo) w) as H1.
  destruct (git _ (Some repo) w) as [[out|e] w1]; [|done].
  pose proof (git_stdout ["rev-parse"; rev0] (Some repo) w1) as H2.
  destruct (git _ (Some repo) w1) as [[out2|e] w2]; simpl in *; congruence.
Qed.

Lemma handle_sections_logs_only self checkout clone_path rev0 work_tree sections :
  (∀ c r d w, logs_only self w (checkout c r d w).2) →
  ∀ w, logs_only self w
         (handle_sections self checkout clone_path rev0 work_tree sections w).2.
Proof.
  intros Hcheckout.
  induction sections as [|[sub_relative_path sub_url] sections IH]; intros w; simpl.
  - by apply logs_only_refl.
  - pose proof (git_clone_cached_logs_only self sub_url w) as H1.
    destruct (git_clone_cached self sub_url w) as [[sub_clone|e] w1]; [|done].
    pose proof (git_logs_only self ["ls-tree"; "-r"; rev0; sub_relative_path]
                  (Some clone_path) w1) as H2.
    destruct (git _ (Some clone_path) w1) as [[ls_tree|e] w2];
      [|by apply (logs_only_trans _ _ w1)].
    assert (logs_only self w w2) as H12 by by apply (logs_only_trans _ _ w1).
    destruct (subscript (split ls_tree) 2) as [sub_rev|e]; [|done].
    pose proof (Hcheckout sub_clone sub_rev
                  (path_join work_tree sub_relative_path) w2) as H3.
    destruct (checkout _ _ _ w2) as [[[]|e] w3];
      [|by apply (logs_only_trans _ _ w2)].
    apply (logs_only_trans _ _ w3); [by apply (logs_only_trans _ _ w2) | apply IH].
Qed.

Lemma checkout_tree_logs_only self depth : ∀ clone rev0 dest0 w,
  logs_only self w (checkout_tree self depth clone rev0 dest0 w).2.
Proof.
  induction depth as [|depth IH]; intros clone rev0 dest0 w; simpl.
  - by apply logs_only_refl.
  - assert (logs_only self w (log self "checkout" w)) as Hlog
      by (apply log_logs_only; by_evaluation).
    pose proof (git_logs_only self
                  ["--work-tree=" +:+ dest0; "checkout"; rev0; "--"; "."]
                  (Some clone) (log self "checkout" w)) as H1.
    destruct (git _ (Some clone) _) as [[out|e] w2]; simpl in *.
    + apply (logs_only_trans _ _ w2); [by apply (logs_only_trans _ _ _ _ Hlog)|].
      unfold handle_subrepos. destruct (negb _); [by apply logs_only_refl|].
      by apply handle_sections_logs_only.
    + by apply (logs_only_trans _ _ _ _ Hlog).
Qed.

(** X9. Whatever a [FetchJob] prints is a line "git clone URL",
    "git fetch URL" or "git checkout URL" with the URL of the job itself,
    also when it is a submodule that is cloned or checked out. *)
Theorem run_logs_only (self : FetchJob) (w : world) :
  logs_only self w (run self w).2.
Proof.
  unfold run.
  pose proof (git_clone_cached_logs_only self (url self) w) as H1.
  destruct (git_clone_cached self (url self) w) as [[cached_dir|e] w1]; [|done].
  pose proof (git_already_has_rev_stdout self cached_dir (rev self) w1) as H2.
  destruct (git_already_has_rev self cached_dir (rev self) w1) as [has_rev w2].
  simpl in H2.
  assert (logs_only self w w2) as H12.
  { apply (logs_only_trans _ _ _ _ H1). by apply logs_only_refl. }
  destruct has_rev; simpl.
  - apply (logs_only_trans _ _ _ _ H12). apply checkout_tree_logs_only.
  - assert (logs_only self w2 (log self "fetch" w2)) as Hlog
      by (apply log_logs_only; by_evaluation).
    pose proof (git_logs_only self ["fetch"; "--prune"] (Some cached_dir)
                  (log self "fetch" w2)) as H3.
    destruct (git _ (Some cached_dir) _) as [[out|e] w3]; simpl in *.
    + apply (logs_only_trans _ _ _ _ H12), (logs_only_trans _ _ _ _ Hlog),
        (logs_only_trans _ _ _ _ H3), checkout_tree_logs_only.
    + by apply (logs_only_trans _ _ _ _ H12), (logs_only_trans _ _ _ _ Hlog).
Qed.

(** X17. A call of [git] with a [git_dir] either fails its assertion,
    when [git_dir] is not a directory, and then runs nothing; or runs git
    with "--git-dir=" and the directory in front of the arguments. The
    command is never built without it: the empty string, which [if git_dir]
    would skip, is not a directory. *)
Theorem git_dir_always_passed (args : list string) (d : string) (w : world) :
  (path_isdir (fs w) d = false
   ∧ git args (Some d) w = (Raise (AssertionError ""), w))
  ∨ (path_isdir (fs w) d = true
     ∧ spawned (git args (Some d) w).2
       = spawned w ++ ["git" :: ("--git-dir=" +:+ d) :: args]).
Proof.
  destruct (path_isdir (fs w) d) eqn:Hdir.
  - right. split; [done|]. rewrite (git_spawned_dir _ _ _ Hdir).
    unfold git_command.
    by rewrite bool_decide_eq_false_2 by by eapply path_isdir_nonempty.
  - left. split; [done|]. unfold git. by rewrite Hdir.
Qed.

(** *** main *)

Lemma git_fields_cases name :
  name ∈ git_fields → name = "url" ∨ name = "rev" ∨ name = "reup".
Proof.
  unfold git_fields, plugin_shared.git_required, plugin_shared.git_optional.
  rewrite !elem_of_union, !elem_of_singleton. tauto.
Qed.

Lemma read_fields_from_empty argv :
  read_fields_from argv ∅ = read_fields argv None "master" "master" false.
Proof. reflexivity. Qed.

Lemma read_fields_from_cons name val rest d :
  name ∈ git_fields →
  read_fields_from (name :: val :: rest) d
  = read_fields_from rest (<[name := val]> d).
Proof.
  intros [-> | [-> | ->]]%git_fields_cases; unfold read_fields_from;
    cbn [read_fields].
  - change (String.eqb "url" "--") with false.
    change (String.eqb "url" "url") with true. cbv iota.
    by rewrite lookup_insert_eq, !lookup_insert_ne.
  - change (String.eqb "rev" "--") with false.
    change (String.eqb "rev" "url") with false.
    change (String.eqb "rev" "rev") with true. cbv iota.
    by rewrite lookup_insert_eq, !lookup_insert_ne.
  - change (String.eqb "reup" "--") with false.
    change (String.eqb "reup" "url") with false.
    change (String.eqb "reup" "rev") with false.
    change (String.eqb "reup" "reup") with true. cbv iota.
    rewrite lookup_insert_eq, !lookup_insert_ne by done.
    by rewrite bool_decide_eq_true_2.
Qed.

(** The loop of [main] reads name/value pairs as [parse_plugin_args]
    does. *)
Lemma read_fields_from_field_args_of pairs rest : ∀ d,
  Forall (λ p, p.1 ∈ git_fields) pairs →
  read_fields_from (plugin_shared.field_args_of pairs ++ rest) d
  = read_fields_from rest (plugin_shared.dict_of pairs ∪ d).
Proof.
  induction pairs as [|[name val] pairs IH]; intros d Hnames.
  - change (plugin_shared.dict_of []) with (∅ : gmap string string).
    by rewrite (left_id_L ∅ (∪)).
  - inversion Hnames as [|? ? Hname Hrest]; subst. simpl in Hname.
    cbn [plugin_shared.field_args_of app].
    rewrite read_fields_from_cons, IH by done.
    by rewrite plugin_shared.dict_of_cons_union.
Qed.

Lemma read_fields_accepted (args : list string) (fields : gmap string string)
    (command : string) (command_args : list string) :
  plugin_shared.parse_plugin_args plugin_shared.git_required
    plugin_shared.git_optional args
  = Ok (fields, command, command_args) →
  ∃ url0, fields !! "url" = Some url0
    ∧ read_fields args None "master" "master" false
      = Ok (Some url0, default "master" (fields !! "rev"),
            default "master" (fields !! "reup"),
            bool_decide (is_Some (fields !! "reup")),
            "--" :: command :: command_args).
Proof.
  intros (pairs & -> & Hfields & Hrecognized & Hreq)%plugin_shared.parse_plugin_args_Ok_pairs.
  assert (is_Some (fields !! "url")) as [url0 Hurl].
  { apply elem_of_dom.
    apply (proj1 (plugin_shared.required_present _ _) Hreq).
    by apply elem_of_singleton. }
  exists url0. split; [done|].
  rewrite <- read_fields_from_empty. unfold plugin_shared.plugin_argv.
  rewrite read_fields_from_field_args_of by done.
  rewrite (right_id_L ∅ (∪)), <- Hfields.
  unfold read_fields_from. cbn [read_fields].
  change (String.eqb "--" "--") with true. cbv iota. by rewrite Hurl.
Qed.

(** X10. [main] reads its fields as [plugin_shared.parse_plugin_args]
    would: on every argument vector that one accepts for the fields of git
    with the command "fetch", a destination and a cache path, [main] runs
    the [FetchJob] of the "url" field and of the "rev" field, "master" when
    there is none. *)
Theorem main_fetch_fields (exe : string) (args : list string)
    (fields : gmap string string) (dest0 cache_path0 : string) (w : world) :
  plugin_shared.parse_plugin_args plugin_shared.git_required
    plugin_shared.git_optional args
  = Ok (fields, "fetch", [dest0; cache_path0]) →
  ∃ url0, fields !! "url" = Some url0
    ∧ main (exe :: args) w
      = run {| cache_path := cache_path0; dest := dest0; url := url0;
               rev := default "master" (fields !! "rev") |} w.
Proof.
  intros (url0 & Hurl & Hread)%read_fields_accepted.
  exists url0. split; [done|]. unfold main. by rewrite Hread.
Qed.

Lemma git_exit_zero args d w output e' fs' :
  path_isdir (fs w) d = true →
  process (git_command args (Some d)) (env w) (fs w) = (0%Z, output, e', fs') →
  git args (Some d) w
  = (Ok output, World fs' (stdout w) (spawned w ++ [git_command args (Some d)]) e').
Proof. intros Hdir Hprocess. unfold git. by rewrite Hdir, Hprocess. Qed.

Lemma path_isdir_exists fs0 p : path_isdir fs0 p = true → path_exists fs0 p = true.
Proof.
  unfold path_isdir, path_exists. intros H%bool_decide_eq_true.
  apply bool_decide_eq_true. by rewrite H.
Qed.

(** X11. "reup" on a repository that is in the cache: when
    [git fetch --prune] and [git rev-parse] of the target exit with 0,
    exactly these two commands are run, in this order, and what is printed
    is "url: " and the URL, then "reup: " and the target if and only if the
    "reup" field was given, then "rev: " and the stripped output of
    [git rev-parse]. The target is the "reup" field, "master" without one;
    the "rev" field plays no part. *)
Theorem main_reup_output (exe : string) (args : list string)
    (fields : gmap string string) (url0 cache_path0 : string) (w : world)
    (out1 out2 : string) (e1 e2 : E) (fs1 fs2 : gmap (list string) kind) :
  let clone := repo_cache_path url0 cache_path0 in
  let fetch := git_command ["fetch"; "--prune"] (Some clone) in
  let rev_parse :=
    git_command ["rev-parse"; default "master" (fields !! "reup")] (Some clone) in
  plugin_shared.parse_plugin_args plugin_shared.git_required
    plugin_shared.git_optional args
  = Ok (fields, "reup", [cache_path0]) →
  fields !! "url" = Some url0 →
  path_isdir (fs w) clone = true →
  process fetch (env w) (fs w) = (0%Z, out1, e1, fs1) →
  path_isdir fs1 clone = true →
  process rev_parse e1 fs1 = (0%Z, out2, e2, fs2) →
  main (exe :: args) w
  = (Ok (),
     World fs2
       (stdout w
        ++ ["url: " +:+ url0]
        ++ match fields !! "reup" with
           | Some target => ["reup: " +:+ target]
           | None => []
           end
        ++ ["rev: " +:+ strip out2])
       (spawned w ++ [fetch; rev_parse])
       e2).
Proof.
  intros clone fetch rev_parse Hparse Hurl Hdir Hfetch Hdir1 Hrev.
  apply read_fields_accepted in Hparse as (url' & Hurl' & Hread).
  assert (url' = url0) as -> by congruence.
  unfold main. rewrite Hread. cbn [tail].
  change (String.eqb "reup" "fetch") with false.
  change (String.eqb "reup" "reup") with true. cbv iota.
  unfold git_clone_if_needed. fold clone.
  rewrite (path_isdir_exists _ _ Hdir). cbn [negb].
  rewrite (git_exit_zero _ _ _ _ _ _ Hdir Hfetch).
  rewrite (git_exit_zero _ _ _ out2 e2 fs2) by done.
  unfold print. cbn [fs stdout spawned env].
  destruct (fields !! "reup") as [target|]; cbn [bool_decide default];
    [rewrite bool_decide_eq_true_2 by done | rewrite bool_decide_eq_false_2
       by (by intros [? ?])];
    cbn [fs stdout spawned env]; by rewrite <- !app_assoc.
Qed.

(** X12. The first field name that is not "url", "rev" or "reup" (and not
    the splitter) ends [main] with RuntimeError("Unknown plugin field name:
    " + name), whatever follows it, a missing splitter or a missing "url"
    included; nothing is run or printed. *)
Theorem main_unknown_field (exe : string) (pre : list (string * string))
    (name val : string) (rest : list string) (w : world) :
  Forall (λ p, p.1 ∈ git_fields) pre →
  name ∉ git_fields →
  name ≠ "--" →
  main (exe :: plugin_shared.field_args_of pre ++ name :: val :: rest) w
  = (Raise (RuntimeError ("Unknown plugin field name: " +:+ name)), w).
Proof.
  intros Hpre Hname Hsplitter. unfold main.
  rewrite <- read_fields_from_empty, read_fields_from_field_args_of by done.
  unfold read_fields_from. cbn [read_fields].
  apply String.eqb_neq in Hsplitter. rewrite Hsplitter.
  assert (String.eqb name "url" = false) as ->.
  { apply String.eqb_neq. intros ->. apply Hname. by_evaluation. }
  assert (String.eqb name "rev" = false) as ->.
  { apply String.eqb_neq. intros ->. apply Hname. by_evaluation. }
  assert (String.eqb name "reup" = false) as ->.
  { apply String.eqb_neq. intros ->. apply Hname. by_evaluation. }
  done.
Qed.

(** X18. What [main] does with recognized fields when a part is missing:
    without a splitter the loop runs off the end of the arguments and
    IndexError is raised; with a splitter but no "url" field the assertion
    fails, whatever the command. In both cases nothing is run or
    printed. *)
Theorem main_missing_parts (exe : string) (pairs : list (string * string))
    (command : string) (command_args : list string) (w : world) :
  Forall (λ p, p.1 ∈ git_fields) pairs →
  main (exe :: plugin_shared.field_args_of pairs) w = (Raise IndexError, w)
  ∧ ("url" ∉ pairs.*1 →
     main (exe :: plugin_shared.plugin_argv pairs command command_args) w
     = (Raise (AssertionError ""), w)).
Proof.
  intros Hpairs. unfold main, plugin_shared.plugin_argv. split.
  - rewrite <- (app_nil_r (plugin_shared.field_args_of pairs)).
    by rewrite <- read_fields_from_empty, read_fields_from_field_args_of.
  - intros Hurl.
    rewrite <- read_fields_from_empty, read_fields_from_field_args_of by done.
    unfold read_fields_from. cbn [read_fields].
    change (String.eqb "--" "--") with true. cbv iota.
    rewrite (right_id_L ∅ (∪)).
    assert (plugin_shared.dict_of pairs !! "url" = None) as ->; [|done].
    apply not_elem_of_list_to_map. by rewrite fmap_reverse, elem_of_reverse.
Qed.

End fetch_job.

(** *** Cache paths *)

Lemma hex_value_digit k : k < 16 → hex_value (hex_digit k) = k.
Proof. intros Hk. do 16 (destruct k as [|k]; [reflexivity|]). lia. Qed.

Lemma hex_digit_not_sep k : Ascii.eqb (hex_digit k) "/" = false.
Proof. do 16 (destruct k as [|k]; [reflexivity|]). reflexivity. Qed.

Lemma percent_value b :
  b < 256 → 16 * hex_value (hex_digit (b / 16)) + hex_value (hex_digit (b mod 16)) = b.
Proof.
  intros Hb. rewrite !hex_value_digit.
  - symmetry. apply Nat.div_mod_eq.
  - by apply Nat.mod_upper_bound.
  - apply Nat.Div0.div_lt_upper_bound. lia.
Qed.

Lemma unquote_percent h l rest :
  unquote (String "%" (String h (String l rest)))
  = (let b := 16 * hex_value h + hex_value l in
     if Nat.ltb b 128 then String (ascii_of_nat b) (unquote rest)
     else
       match rest with
       | String _ (String h2 (String l2 rest'')) =>
           let b2 := 16 * hex_value h2 + hex_value l2 in
           String (ascii_of_nat ((b - 192) * 64 + (b2 - 128))) (unquote rest'')
       | _ => ""
       end).
Proof. reflexivity. Qed.

Lemma unquote_other c rest :
  Ascii.eqb c "%" = false → unquote (String c rest) = String c (unquote rest).
Proof. intros H. cbn [unquote]. by rewrite H. Qed.

Lemma percent_app b s :
  percent b +:+ s = String "%" (String (hex_digit (b / 16)) (String (hex_digit (b mod 16)) s)).
Proof. reflexivity. Qed.

Lemma always_safe_plain c :
  always_safe c = true → Ascii.eqb c "%" = false ∧ Ascii.eqb c "/" = false.
Proof.
  intros Hsafe. split.
  - destruct (Ascii.eqb_spec c "%") as [->|]; [done|done].
  - destruct (Ascii.eqb_spec c "/") as [->|]; [done|done].
Qed.

Lemma unquote_quote_char c s : unquote (quote_char c +:+ s) = String c (unquote s).
Proof.
  unfold quote_char.
  pose proof (nat_ascii_bounded c) as Hc.
  destruct (always_safe c) eqn:Hsafe.
  - change (String c "" +:+ s) with (String c s).
    apply unquote_other. by apply always_safe_plain.
  - destruct (Nat.ltb_spec (nat_of_ascii c) 128) as [Hlow|Hhigh].
    + rewrite percent_app, unquote_percent. cbv zeta.
      rewrite percent_value by lia.
      destruct (Nat.ltb_spec (nat_of_ascii c) 128); [|lia].
      by rewrite ascii_nat_embedding.
    + change ((percent ?a +:+ percent ?b) +:+ s)
        with (percent a +:+ (percent b +:+ s)).
      rewrite (percent_app (128 + _)), percent_app, unquote_percent. cbv zeta.
      assert (nat_of_ascii c / 64 < 4) by (apply Nat.Div0.div_lt_upper_bound; lia).
      assert (nat_of_ascii c `mod` 64 < 64) by (by apply Nat.mod_upper_bound).
      rewrite !percent_value by lia.
      destruct (Nat.ltb_spec (192 + nat_of_ascii c / 64) 128); [lia|].
      replace (_ + _) with (nat_of_ascii c);
        [by rewrite ascii_nat_embedding|].
      rewrite (Nat.div_mod_eq (nat_of_ascii c) 64) at 1. lia.
Qed.

Lemma unquote_quote s : unquote (quote s) = s.
Proof.
  induction s as [|c s IH]; [done|].
  simpl. by rewrite unquote_quote_char, IH.
Qed.

Lemma has_sep_percent b s : has_sep (percent b +:+ s) = has_sep s.
Proof.
  rewrite percent_app. cbn [has_sep]. by rewrite !hex_digit_not_sep.
Qed.

Lemma has_sep_quote_char c s : has_sep (quote_char c +:+ s) = has_sep s.
Proof.
  unfold quote_char. destruct (always_safe c) eqn:Hsafe.
  - change (String c "" +:+ s) with (String c s). cbn [has_sep].
    by rewrite (proj2 (always_safe_plain c Hsafe)).
  - destruct (Nat.ltb _ 128); [apply has_sep_percent|].
    change ((percent ?a +:+ percent ?b) +:+ s)
      with (percent a +:+ (percent b +:+ s)).
    by rewrite !has_sep_percent.
Qed.

Lemma has_sep_quote s : has_sep (quote s) = false.
Proof.
  induction s as [|c s IH]; [done|]. simpl. by rewrite has_sep_quote_char.
Qed.

Lemma startswith_sep_cons : ∀ c s, startswith_sep (String c s) = Ascii.eqb c "/".
Proof. intros [[] [] [] [] [] [] [] []] s; reflexivity. Qed.

Lemma startswith_sep_has_sep s : has_sep s = false → startswith_sep s = false.
Proof.
  destruct s as [|c s]; [done|]. rewrite startswith_sep_cons. cbn [has_sep].
  by intros [? _]%orb_false_iff.
Qed.

Lemma startswith_sep_quote s : startswith_sep (quote s) = false.
Proof. apply startswith_sep_has_sep, has_sep_quote. Qed.

Lemma path_join_inj a b1 b2 :
  startswith_sep b1 = false → startswith_sep b2 = false →
  path_join a b1 = path_join a b2 → b1 = b2.
Proof.
  unfold path_join. intros -> ->.
  destruct (bool_decide (a = "") || endswith_sep a); intros H.
  - by apply (inj (String.app a)) in H.
  - apply (inj (String.app a)) in H. by apply (inj (String.app "/")) in H.
Qed.

(** X5. Two URLs with the same cache path are the same URL: the clones of
    different URLs never share a directory of the cache. *)
Theorem repo_cache_path_inj (url1 url2 cache_root : string) :
  repo_cache_path url1 cache_root = repo_cache_path url2 cache_root → url1 = url2.
Proof.
  unfold repo_cache_path. intros H.
  apply path_join_inj in H.
  - by rewrite <- (unquote_quote url1), <- (unquote_quote url2), H.
  - apply startswith_sep_quote.
  - apply startswith_sep_quote.
Qed.

Lemma string_app_cons x a s : String x a +:+ s = String x (a +:+ s).
Proof. reflexivity. Qed.

Lemma string_app_assoc a b c : (a +:+ b) +:+ c = a +:+ (b +:+ c).
Proof. induction a as [|x a IH]; [done|]. by rewrite !string_app_cons, IH. Qed.

Lemma string_app_nil_r a : a +:+ "" = a.
Proof. induction a as [|x a IH]; [done|]. by rewrite string_app_cons, IH. Qed.

Lemma rev_app_rev_app b : ∀ cur acc,
  String.rev_app (String.rev_app b cur) acc = String.rev_app cur (b +:+ acc).
Proof.
  induction b as [|x b IH]; intros cur acc; [done|].
  cbn [String.rev_app]. by rewrite IH, string_app_cons.
Qed.

Lemma split_sep_no_sep b : ∀ cur,
  has_sep b = false → split_sep b cur = [String.rev (String.rev_app b cur)].
Proof.
  induction b as [|x b IH]; intros cur Hb; [done|].
  cbn [has_sep] in Hb. apply orb_false_iff in Hb as [Hx Hb].
  cbn [split_sep String.rev_app]. rewrite Hx. by apply IH.
Qed.

Lemma split_sep_whole b : has_sep b = false → split_sep b "" = [b].
Proof.
  intros Hb. rewrite split_sep_no_sep by done. unfold String.rev.
  by rewrite rev_app_rev_app, string_app_nil_r.
Qed.

(** [split_sep] on a string that goes on: the pieces that are complete stay,
    and the last one is still being read. *)
Lemma split_sep_app a : ∀ cur,
  ∃ init acc,
    split_sep a cur = init ++ [String.rev acc]
    ∧ ∀ s, split_sep (a +:+ s) cur = init ++ split_sep s acc.
Proof.
  induction a as [|x a IH]; intros cur.
  - by exists [], cur.
  - destruct (Ascii.eqb x "/") eqn:Hx.
    + destruct (IH "") as (init & acc & Ha & Happ).
      exists (String.rev cur :: init), acc. split.
      * cbn [split_sep]. by rewrite Hx, Ha.
      * intros s. rewrite string_app_cons. cbn [split_sep]. by rewrite Hx, Happ.
    + destruct (IH (String x cur)) as (init & acc & Ha & Happ).
      exists init, acc. split.
      * cbn [split_sep]. by rewrite Hx.
      * intros s. rewrite string_app_cons. cbn [split_sep]. by rewrite Hx.
Qed.

Lemma components_child a b :
  has_sep b = false → b ≠ "" → components (a +:+ "/" +:+ b) = components a ++ [b].
Proof.
  intros Hb Hne. unfold components.
  destruct (split_sep_app a "") as (init & acc & -> & ->).
  change ("/" +:+ b) with (String "/" b).
  cbn [split_sep]. change (Ascii.eqb "/" "/") with true. cbv iota.
  rewrite split_sep_whole by done.
  rewrite (filter_app _ init), (filter_app _ init), <- app_assoc. f_equal.
  change (String.rev acc :: [b]) with ([String.rev acc] ++ [b]).
  rewrite filter_app. f_equal. by rewrite (filter_cons_True _ b []).
Qed.

Lemma components_trailing_sep a : components (a +:+ "/") = components a.
Proof.
  unfold components.
  destruct (split_sep_app a "") as (init & acc & -> & ->).
  cbn [split_sep]. change (Ascii.eqb "/" "/") with true. cbv iota.
  rewrite (filter_app _ init), (filter_app _ init). by f_equal.
Qed.

Lemma endswith_sep_app a : endswith_sep a = true → ∃ a0, a = a0 +:+ "/".
Proof.
  induction a as [|x a IH]; [done|]. cbn [endswith_sep]. destruct a as [|y a].
  - intros ->%Ascii.eqb_eq. by exists "".
  - intros [a0 ->]%IH. by exists (String x a0).
Qed.

(** X6. For a URL other than the empty string, "." and "..", the escaped
    URL is one path segment that is a name: it is not empty, has no "/",
    and is neither "." nor "..". The cache path is the cache root and that
    one segment more: it names an entry of the cache root itself, not one
    below another URL's directory or outside the cache root. *)
Theorem repo_cache_path_components (url cache_root : string) :
  url ≠ "" → url ≠ "." → url ≠ ".." →
  has_sep (quote url) = false
  ∧ quote url ≠ "" ∧ quote url ≠ "." ∧ quote url ≠ ".."
  ∧ components (repo_cache_path url cache_root) = components cache_root ++ [quote url].
Proof.
  intros Hurl Hdot Hdots. pose proof (has_sep_quote url) as Hsep.
  assert (∀ s, unquote s = s → url ≠ s → quote url ≠ s) as Hother.
  { intros s Hs Hne Heq. apply Hne. by rewrite <- (unquote_quote url), Heq. }
  assert (quote url ≠ "") as Hne by by apply Hother.
  split; [done|]. split; [done|].
  split; [by apply Hother|]. split; [by apply Hother|].
  unfold repo_cache_path, path_join.
  rewrite startswith_sep_quote.
  destruct (bool_decide (cache_root = "")) eqn:Hroot; simpl.
  - apply bool_decide_eq_true in Hroot. subst cache_root.
    unfold components. change ("" +:+ quote url) with (quote url).
    rewrite split_sep_whole by done. by rewrite (filter_cons_True _ _ []).
  - destruct (endswith_sep cache_root) eqn:Hend.
    + apply endswith_sep_app in Hend as [a0 ->].
      rewrite string_app_assoc, components_trailing_sep.
      by apply components_child.
    + by apply components_child.
Qed.

Lemma repo_cache_path_components_witness :
  components (repo_cache_path "../x/y" "/var/cache/")
  = ["var"; "cache"; "..%2Fx%2Fy"].
Proof.
  destruct (repo_cache_path_components "../x/y" "/var/cache/") as (_ & _ & _ & _ & ->);
    [discriminate | discriminate | discriminate | reflexivity].
Defined.

(** The URLs "." and ".." are escaped to themselves: their cache path
    names the cache root and the directory above it. *)
Example repo_cache_path_dots :
  repo_cache_path "." "cache" = "cache/." ∧ repo_cache_path ".." "cache" = "cache/..".
Proof. split; reflexivity. Qed.

Lemma repo_cache_path_inj_witness :
  repo_cache_path "a/b" "cache" = repo_cache_path "a/b" "cache" ∧ "a/b" = "a/b".
Proof.
  split; [reflexivity|].
  by apply (repo_cache_path_inj "a/b" "a/b" "cache").
Defined.

End git_plugin.

Module git_plugin_examples.
Import git_plugin.

(** A world without network: cloning leaves a partial repository behind and
    fails; every other git command succeeds and prints nothing. *)
Definition offline (command : list string) (e : unit)
    (fs0 : gmap (list string) kind) : Z * string * unit * gmap (list string) kind :=
  match command with
  | ["git"; "clone"; "--mirror"; _; repo_path] =>
      (128%Z, "fatal: unable to access the remote", e,
       <[components repo_path ++ ["HEAD"] := File]> fs0)
  | _ => (0%Z, "", e, fs0)
  end.

Definition no_gitmodules (gitmodules : string) (e : unit) : list (string * string) := [].

Definition cache_only : world :=
  World {[ ["cache"] := Dir ]} [] [] ().


(** A mirror that holds the commit [known], with a branch "master" on it;
    nothing ever fails. *)
Definition mirror (known : string) (command : list string) (e : unit)
    (fs0 : gmap (list string) kind) : Z * string * unit * gmap (list string) kind :=
  match command with
  | [_; _; "cat-file"; "-e"; r] =>
      (if bool_decide (r = known ∨ r = "master") then 0%Z else 128%Z, "", e, fs0)
  | [_; _; "rev-parse"; r] => (0%Z, known +:+ newline, e, fs0)
  | _ => (0%Z, "", e, fs0)
  end.

Definition cached_mirror : world :=
  World {[ ["cache"] := Dir; ["cache"; "https%3A%2F%2Fh%2Fr.git"] := Dir ]} [] [] ().

Definition job (rev : string) : FetchJob :=
  {| cache_path := "cache"; dest := "out"; url := "https://h/r.git"; rev := rev |}.

Example repo_cache_path_escapes :
  repo_cache_path "https://h/r.git" "cache" = "cache/https%3A%2F%2Fh%2Fr.git".
Proof. reflexivity. Qed.



(** The plugin's "fetch" command is a [FetchJob]. *)
Example main_fetch_is_run :
  main (mirror "0123abc") no_gitmodules 10
    ["git_plugin.py"; "url"; "https://h/r.git"; "rev"; "0123abc"; "--";
     "fetch"; "out"; "cache"] cached_mirror
  = run (mirror "0123abc") no_gitmodules 10 (job "0123abc") cached_mirror.
Proof. reflexivity. Qed.

Example main_reup :
  (main (mirror "0123abc") no_gitmodules 10
     ["git_plugin.py"; "url"; "https://h/r.git"; "--"; "reup"; "cache"]
     cached_mirror).2.(stdout)
  = ["url: https://h/r.git"; "rev: 0123abc"].
Proof. vm_compute. reflexivity. Qed.

(** A branch name is fetched although the clone has it ... *)
Lemma run_fetches_unless_full_hash_witness :
  git_clone_cached (mirror "0123abc") (job "master") "https://h/r.git" cached_mirror
  = (Ok "cache/https%3A%2F%2Fh%2Fr.git", cached_mirror)
  ∧ run (mirror "0123abc") no_gitmodules 10 (job "master") cached_mirror
    = (Ok (),
       World (fs cached_mirror)
         ["git fetch https://h/r.git"; "git checkout https://h/r.git"]
         [["git"; "--git-dir=cache/https%3A%2F%2Fh%2Fr.git"; "cat-file"; "-e"; "master"];
          ["git"; "--git-dir=cache/https%3A%2F%2Fh%2Fr.git"; "rev-parse"; "master"];
          ["git"; "--git-dir=cache/https%3A%2F%2Fh%2Fr.git"; "fetch"; "--prune"];
          ["git"; "--git-dir=cache/https%3A%2F%2Fh%2Fr.git"; "--work-tree=out";
           "checkout"; "master"; "--"; "."]]
         ()).
Proof.
  split; [reflexivity|].
  pose proof (run_fetches_unless_full_hash (mirror "0123abc") no_gitmodules 10
                (job "master") cached_mirror _ _ eq_refl) as (_ & _ & H).
  destruct H as [-> _].
  - intros (_ & H). vm_compute in H. destruct H as (_ & _ & _ & H). discriminate.
  - vm_compute. reflexivity.
Defined.

(** ... and a full hash the clone has is not. *)
Example run_skips_fetch_for_full_hash :
  run (mirror "0123abc") no_gitmodules 10 (job "0123abc") cached_mirror
  = (Ok (),
     World (fs cached_mirror)
       ["git checkout https://h/r.git"]
       [["git"; "--git-dir=cache/https%3A%2F%2Fh%2Fr.git"; "cat-file"; "-e"; "0123abc"];
        ["git"; "--git-dir=cache/https%3A%2F%2Fh%2Fr.git"; "rev-parse"; "0123abc"];
        ["git"; "--git-dir=cache/https%3A%2F%2Fh%2Fr.git"; "--work-tree=out";
         "checkout"; "0123abc"; "--"; "."]]
       ()).
Proof. vm_compute. reflexivity. Qed.

(** Printing to a closed pipe. *)
Definition broken_pipe (w : @world unit) : result unit * @world unit :=
  (Raise (OSError "BrokenPipeError"), w).

(** A repository whose tree records the submodule "a" at 0123abc and has
    nothing at the path of any other; nothing ever fails. *)
Definition with_submodule (command : list string) (e : unit)
    (fs0 : gmap (list string) kind) : Z * string * unit * gmap (list string) kind :=
  match command with
  | [_; _; "ls-tree"; "-r"; _; sub_relative_path] =>
      (0%Z,
       if bool_decide (sub_relative_path = "a") then "160000 commit 0123abc a" else "",
       e, fs0)
  | _ => (0%Z, "", e, fs0)
  end.

(** The clones of the repository and of its submodules "a" and "b" are in
    the cache. *)
Definition cached_submodules : world :=
  World {[ ["cache"] := Dir; ["cache"; "https%3A%2F%2Fh%2Fr.git"] := Dir;
           ["cache"; "https%3A%2F%2Fh%2Fa.git"] := Dir;
           ["cache"; "https%3A%2F%2Fh%2Fb.git"] := Dir ]} [] [] ().

Lemma git_clone_if_needed_log_fn_fails_witness :
  git_clone_if_needed offline "https://h/r.git" "cache" (Some broken_pipe) cache_only
  = (Raise (OSError "BrokenPipeError"), cache_only)
  ∧ spawned (git_clone_if_needed offline "https://h/r.git" "cache"
               (Some broken_pipe) cache_only).2
    = [].
Proof.
  pose proof (git_clone_if_needed_log_fn_fails offline "https://h/r.git" "cache"
                broken_pipe cache_only _ _ _ eq_refl eq_refl eq_refl eq_refl)
    as (H1 & H2 & _).
  split; [|exact H2]. rewrite H1. vm_compute. reflexivity.
Defined.

Lemma handle_sections_in_order_witness :
  (handle_sections with_submodule (job "master")
     (checkout_tree with_submodule no_gitmodules (job "master") 10)
     "cache/https%3A%2F%2Fh%2Fr.git" "master" "out"
     [("a", "https://h/a.git"); ("b", "https://h/b.git"); ("c", "https://h/c.git")]
     cached_submodules).1
  = Raise IndexError.
Proof.
  erewrite (handle_sections_in_order with_submodule (job "master")
              (checkout_tree with_submodule no_gitmodules (job "master") 10)
              "cache/https%3A%2F%2Fh%2Fr.git" "master" "out"
              ("a", "https://h/a.git") ("b", "https://h/b.git")
              [("c", "https://h/c.git")] cached_submodules).
  - reflexivity.
  - vm_compute. reflexivity.
  - vm_compute. reflexivity.
Defined.

Lemma main_fetch_fields_witness :
  ∃ url0,
    ({["rev" := "0123abc"; "url" := "https://h/r.git"]} : gmap string string) !! "url"
    = Some url0
    ∧ main (mirror "0123abc") no_gitmodules 10
        ["git_plugin.py"; "rev"; "0123abc"; "url"; "https://h/r.git"; "--";
         "fetch"; "out"; "cache"] cached_mirror
      = run (mirror "0123abc") no_gitmodules 10
          {| cache_path := "cache"; dest := "out"; url := url0;
             rev := default "master"
                      (({["rev" := "0123abc"; "url" := "https://h/r.git"]}
                        : gmap string string) !! "rev") |}
          cached_mirror.
Proof.
  apply (main_fetch_fields (mirror "0123abc") no_gitmodules 10 "git_plugin.py"
           ["rev"; "0123abc"; "url"; "https://h/r.git"; "--"; "fetch"; "out"; "cache"]
           {["rev" := "0123abc"; "url" := "https://h/r.git"]} "out" "cache"
           cached_mirror).
  by vm_compute.
Defined.

Lemma main_reup_output_witness :
  main (mirror "0123abc") no_gitmodules 10
    ["git_plugin.py"; "url"; "https://h/r.git"; "rev"; "old"; "reup"; "dev"; "--";
     "reup"; "cache"] cached_mirror
  = (Ok (),
     World (fs cached_mirror)
       ["url: https://h/r.git"; "reup: dev"; "rev: 0123abc"]
       [["git"; "--git-dir=cache/https%3A%2F%2Fh%2Fr.git"; "fetch"; "--prune"];
        ["git"; "--git-dir=cache/https%3A%2F%2Fh%2Fr.git"; "rev-parse"; "dev"]]
       ()).
Proof.
  pose proof (main_reup_output (mirror "0123abc") no_gitmodules 10 "git_plugin.py"
                ["url"; "https://h/r.git"; "rev"; "old"; "reup"; "dev"; "--";
                 "reup"; "cache"]
                {["url" := "https://h/r.git"; "rev" := "old"; "reup" := "dev"]}
                "https://h/r.git" "cache" cached_mirror "" ("0123abc" +:+ newline)
                () () (fs cached_mirror) (fs cached_mirror)) as H.
  cbv zeta in H. specialize (H ltac:(vm_compute; reflexivity)).
  rewrite (H eq_refl eq_refl eq_refl eq_refl eq_refl). reflexivity.
Defined.

Lemma main_unknown_field_witness :
  main offline no_gitmodules 10 ["git_plugin.py"; "url"; "u"; "branch"; "b"] cache_only
  = (Raise (RuntimeError "Unknown plugin field name: branch"), cache_only).
Proof.
  apply (main_unknown_field offline no_gitmodules 10 "git_plugin.py" [("url", "u")]
           "branch" "b" [] cache_only).
  - repeat constructor; by_evaluation.
  - by_evaluation.
  - done.
Defined.

Lemma main_missing_parts_witness :
  main offline no_gitmodules 10 ["git_plugin.py"; "rev"; "r"] cache_only
  = (Raise IndexError, cache_only)
  ∧ main offline no_gitmodules 10 ["git_plugin.py"; "rev"; "r"; "--"; "fetch"; "d"; "c"]
      cache_only
    = (Raise (AssertionError ""), cache_only).
Proof.
  destruct (main_missing_parts offline no_gitmodules 10 "git_plugin.py"
              [("rev", "r")] "fetch" ["d"; "c"] cache_only) as [H1 H2].
  - repeat constructor; by_evaluation.
  - split; [exact H1|]. apply H2. by_evaluation.
Defined.

End git_plugin_examples.

(** ** peru/async.py *)

Module async.

(** *** Incremental decoders

    Bytes and code points are numbers. [decode] is
    [decoder.decode(outputbytes)] (never final). [buffer] is what
    [decoder.buffer] holds, the bytes read but not yet decoded, for a
    decoder that has this attribute (the subclasses of
    [codecs.BufferedIncrementalDecoder]: utf-8, utf-16, ...), and [None]
    for one that has not (latin-1, ascii and the charmap codecs, which
    decode byte by byte). *)

Record incremental_decoder : Type := {
  dstate : Type;
  initial : dstate;
  decode : dstate → list N → list N * dstate;
  buffer : dstate → option (list N)
}.

(** The UTF-8 decoder with [errors='replace'] ([codecs.getincrementaldecoder]
    of 'utf8'). Its state is the buffer: the bytes of a sequence that is
    well-formed so far and not complete. *)

Definition in_range (lo hi b : N) : bool := (lo <=? b)%N && (b <=? hi)%N.

(** The number of bytes of the sequence the lead byte [b] starts; 0 for a
    byte that starts none. *)
Definition sequence_length (b : N) : nat :=
  if in_range 0x00 0x7F b then 1
  else if in_range 0xC2 0xDF b then 2
  else if in_range 0xE0 0xEF b then 3
  else if in_range 0xF0 0xF4 b then 4
  else 0.

(** Whether [b] may follow the bytes [pending] of a sequence: the second
    byte is limited by the lead byte (no overlong forms, no surrogates,
    nothing above U+10FFFF), any later one is 80..BF. *)
Definition continues (pending : list N) (b : N) : bool :=
  match pending with
  | [] => false
  | [lead] =>
      if (lead =? 0xE0)%N then in_range 0xA0 0xBF b
      else if (lead =? 0xED)%N then in_range 0x80 0x9F b
      else if (lead =? 0xF0)%N then in_range 0x90 0xBF b
      else if (lead =? 0xF4)%N then in_range 0x80 0x8F b
      else in_range 0x80 0xBF b
  | _ => in_range 0x80 0xBF b
  end.

(** The code point of a complete sequence. *)
Definition code_point (bytes : list N) : N :=
  match bytes with
  | [a] => a
  | [a; b] => N.lor (N.shiftl (N.land a 0x1F) 6) (N.land b 0x3F)
  | [a; b; c] =>
      N.lor (N.shiftl (N.land a 0x0F) 12)
        (N.lor (N.shiftl (N.land b 0x3F) 6) (N.land c 0x3F))
  | [a; b; c; d] =>
      N.lor (N.shiftl (N.land a 0x07) 18)
        (N.lor (N.shiftl (N.land b 0x3F) 12)
           (N.lor (N.shiftl (N.land c 0x3F) 6) (N.land d 0x3F)))
  | _ => 0xFFFD
  end.

Definition replacement : N := 0xFFFD.

(** A byte that starts a sequence. *)
Definition utf8_start (b : N) : list N * list N :=
  match sequence_length b with
  | 0 => ([replacement], [])
  | 1 => ([b], [])
  | _ => ([], [b])
  end.

(** One more byte: the text it completes and the new buffer. A byte that
    cannot follow the buffer ends it (one U+FFFD for the broken sequence)
    and is read again as a start. *)
Definition utf8_byte (pending : list N) (b : N) : list N * list N :=
  match pending with
  | [] => utf8_start b
  | lead :: _ =>
      if continues pending b then
        if Nat.eqb (length pending + 1) (sequence_length lead)
        then ([code_point (pending ++ [b])], [])
        else ([], pending ++ [b])
      else
        let '(text, pending') := utf8_start b in
        (replacement :: text, pending')
  end.

Fixpoint utf8_decode (pending : list N) (input : list N) : list N * list N :=
  match input with
  | [] => ([], pending)
  | b :: input' =>
      let '(text, pending') := utf8_byte pending b in
      let '(text', pending'') := utf8_decode pending' input' in
      (text ++ text', pending'')
  end.

Definition utf8 : incremental_decoder :=
  {| dstate := list N; initial := []; decode := utf8_decode; buffer := λ p, Some p |}.

(** The latin-1 decoder: every byte is its own code point; it keeps no
    state and has no attribute [buffer]. *)
Definition latin_1 : incremental_decoder :=
  {| dstate := unit; initial := (); decode := λ _ input, (input, ());
     buffer := λ _, None |}.

(** [repr(b)] of a bytes object. *)
Definition dquote : ascii := ascii_of_nat 34.

Definition hex_lower (n : N) : ascii :=
  default "0"%char (String.list_ascii_of_string "0123456789abcdef" !! N.to_nat n).

Definition backslash : ascii := "\"%char.

Definition repr_byte (quote : ascii) (b : N) : string :=
  let c := ascii_of_N b in
  if Ascii.eqb c quote || Ascii.eqb c backslash then String backslash (String c "")
  else if (b =? 9)%N then String backslash "t"
  else if (b =? 10)%N then String backslash "n"
  else if (b =? 13)%N then String backslash "r"
  else if (b <? 32)%N || (127 <=? b)%N
  then String backslash
         (String "x" (String (hex_lower (b / 16)) (String (hex_lower (b mod 16)) "")))
  else String c "".

Definition repr_bytes (bytes : list N) : string :=
  let quote :=
    if bool_decide (39%N ∈ bytes) && negb (bool_decide (34%N ∈ bytes))
    then dquote else "'"%char in
  "b" +:+ String quote (foldr (λ b rest, repr_byte quote b +:+ rest) (String quote "") bytes).

(** *** create_subprocess_with_handle *)

(** What a display handle sees: entering and leaving its [with] block, and
    the text written to it. *)
Inductive display_event : Type :=
| Enter
| Write (text : list N)
| Exit.

Section subprocess.

(** [codec] is the decoder made from [sys.stdout.encoding or 'utf8'].
    [launch command shell cwd] is the child process: what the successive
    [proc.stdout.read(4096)] return (an empty one, or the end of the list,
    is the end of the output) and what [proc.wait()] returns; or the error
    raised instead of starting it. *)
Variable codec : incremental_decoder.
Variable launch : command → bool → string → result (list (list N) * Z).

(** The [while True] loop. *)
Fixpoint read_loop (reads : list (list N)) (decoder : dstate codec)
    (output_copy : list N) (display : list display_event)
    : dstate codec * list N * list display_event :=
  match reads with
  | [] => (decoder, output_copy, display)
  | outputbytes :: reads' =>
      if bool_decide (outputbytes = []) then (decoder, output_copy, display)
      else
        let '(outputstr, decoder') := decode codec decoder outputbytes in
        read_loop reads' decoder' (output_copy ++ outputstr)
          (display ++ [Write outputstr])
  end.

Definition create_subprocess_with_handle (command : Py.command) (shell : bool)
    (cwd : string) (display : list display_event)
    : result (list N) * list display_event :=
  (* with display_handle: *)
  let display := display ++ [Enter] in
  match launch command shell cwd with
  | Raise e => (Raise e, display ++ [Exit])
  | Ok (reads, returncode) =>
      let '(decoder, output_copy, display) :=
        read_loop reads (initial codec) [] display in
      let display := display ++ [Exit] in
      if negb (returncode =? 0)%Z
      then (Raise (CalledProcessError returncode command output_copy), display)
      else
        match buffer codec decoder with
        | None => (Raise (AttributeError "buffer"), display)
        | Some pending =>
            if negb (bool_decide (pending = []))
            then (Raise (AssertionError ("decoder nonempty: " +:+ repr_bytes pending)),
                  display)
            else (Ok output_copy, display)
        end
  end.

(** The bytes read before the end of the output. *)
Fixpoint stream (reads : list (list N)) : list N :=
  match reads with
  | [] => []
  | outputbytes :: reads' =>
      if bool_decide (outputbytes = []) then [] else outputbytes ++ stream reads'
  end.

(** The text accumulated in [output_copy], and the decoder left, after all
    of [reads]. *)
Definition captured (reads : list (list N)) : list N :=
  (read_loop reads (initial codec) [] []).1.2.

Definition decoder_at_exit (reads : list (list N)) : dstate codec :=
  (read_loop reads (initial codec) [] []).1.1.

(** The text written to the display handle. *)
Fixpoint written (display : list display_event) : list N :=
  match display with
  | [] => []
  | Write text :: display' => text ++ written display'
  | _ :: display' => written display'
  end.

(** What the harness is to capture, said without the loop: the text the
    decoder makes of each chunk read before the end of the output, in the
    state the chunks before it left the decoder in, one after the other;
    and the state the last chunk leaves. *)
Fixpoint decoded (decoder : dstate codec) (reads : list (list N)) : list N :=
  match reads with
  | [] => []
  | outputbytes :: reads' =>
      if bool_decide (outputbytes = []) then []
      else (decode codec decoder outputbytes).1
           ++ decoded (decode codec decoder outputbytes).2 reads'
  end.

Fixpoint state_after (decoder : dstate codec) (reads : list (list N)) : dstate codec :=
  match reads with
  | [] => decoder
  | outputbytes :: reads' =>
      if bool_decide (outputbytes = []) then decoder
      else state_after (decode codec decoder outputbytes).2 reads'
  end.

End subprocess.

(** What makes a decoder incremental: no bytes give no text and leave the
    state alone, and a chunk cut in two gives the text of the whole. *)
Definition incremental (codec : incremental_decoder) : Prop :=
  (∀ d, decode codec d [] = ([], d))
  ∧ ∀ d input1 input2,
      decode codec d (input1 ++ input2)
      = (let '(text1, d1) := decode codec d input1 in
         let '(text2, d2) := decode codec d1 input2 in
         (text1 ++ text2, d2)).

(** A child that prints "a€b" in two chunks that cut the "€" (E2 82 AC) in
    two, and one that stops in the middle of it. *)
Definition prints (reads : list (list N)) (returncode : Z)
    (command : Py.command) (shell : bool) (cwd : string)
    : result (list (list N) * Z) :=
  Ok (reads, returncode).

Definition euro_in_two : list (list N) := [[0x61; 0xE2; 0x82]; [0xAC; 0x62]]%N.
Definition euro_cut_short : list (list N) := [[0x61; 0xE2; 0x82]]%N.

(** *** stable_gather

    The event loop, as far as [stable_gather] depends on it. A coroutine
    object has an identity ([ident]), and here a fixed course: it starts,
    stays suspended for [delay] iterations of the loop, and returns
    [value]. The loop keeps its handles in a queue ([ready], first in first
    out), logs which task started and which finished, and keeps the results
    of the finished ones. *)

Record coroutine (R : Type) : Type := Coroutine {
  ident : nat;
  delay : nat;
  value : R
}.
Arguments Coroutine {R} ident delay value.
Arguments ident {R} c.
Arguments delay {R} c.
Arguments value {R} c.

Record loop (R : Type) : Type := EventLoop {
  ready : list nat;
  tasks : gmap nat (coroutine R);
  waiting : list (nat * nat);
  started : list nat;
  finished : list nat;
  results : gmap nat R
}.
Arguments EventLoop {R} ready tasks waiting started finished results.
Arguments ready {R} l.
Arguments tasks {R} l.
Arguments waiting {R} l.
Arguments started {R} l.
Arguments finished {R} l.
Arguments results {R} l.

Section gather.

Context {R : Type}.

Definition new_event_loop : loop R := EventLoop [] ∅ [] [] [] ∅.

(** [asyncio.async(coro)]: a task is made for the coroutine and its first
    step is queued ([call_soon]); the future returned is the task. *)
Definition async (coro : coroutine R) (l : loop R) : nat * loop R :=
  (ident coro,
   EventLoop (ready l ++ [ident coro]) (<[ident coro := coro]> (tasks l))
     (waiting l) (started l) (finished l) (results l)).

(** [[asyncio.async(coro) for coro in coros]] *)
Fixpoint async_all (coros : list (coroutine R)) (l : loop R) : list nat * loop R :=
  match coros with
  | [] => ([], l)
  | coro :: coros' =>
      let '(future, l1) := async coro l in
      let '(futures, l2) := async_all coros' l1 in
      (future :: futures, l2)
  end.

(** [asyncio.gather] on the futures: the future that waits for its children; its
    result lists theirs, in the order of the arguments. *)
Definition gather (futures : list nat) : list nat := futures.

Definition gather_result (children : list nat) (l : loop R) : option (list R) :=
  mapM (λ child, results l !! child) children.

Definition stable_gather (coros : list (coroutine R)) (l : loop R)
    : result (list nat) * loop R :=
  if negb (Nat.eqb (length coros) (size (list_to_set (ident <$> coros) : gset nat)))
  then (Raise (AssertionError "no duplicates allowed"), l)
  else
    let '(futures, l') := async_all coros l in
    (Ok (gather futures), l').

(** A task finishes: its result is set. *)
Definition finish (coro : coroutine R) (l : loop R) : loop R :=
  EventLoop (ready l) (tasks l) (waiting l) (started l)
    (finished l ++ [ident coro]) (<[ident coro := value coro]> (results l)).

(** The handle of task [i] runs: the task starts and runs until it
    suspends or returns, or it wakes up and returns. *)
Definition step (l : loop R) (i : nat) : loop R :=
  match tasks l !! i with
  | None => l
  | Some coro =>
      if bool_decide (i ∈ started l) then finish coro l
      else
        let l1 := EventLoop (ready l) (tasks l) (waiting l) (started l ++ [i])
                    (finished l) (results l) in
        if Nat.eqb (delay coro) 0 then finish coro l1
        else EventLoop (ready l1) (tasks l1) (waiting l1 ++ [(i, delay coro)])
               (started l1) (finished l1) (results l1)
  end.

(** One iteration: the handles queued when it begins run in turn, then
    time passes and the tasks that have waited long enough are queued. *)
Definition run_once (l : loop R) : loop R :=
  let l1 := foldl step
              (EventLoop [] (tasks l) (waiting l) (started l) (finished l) (results l))
              (ready l) in
  let ticked := (λ '(i, n), (i, pred n)) <$> waiting l1 in
  EventLoop (ready l1 ++ (filter (λ w, w.2 = 0) ticked).*1) (tasks l1)
    (filter (λ w, w.2 ≠ 0) ticked) (started l1) (finished l1) (results l1).

(** [loop.run_until_complete(future)], for at most [iterations]. *)
Fixpoint run_until_complete (iterations : nat) (children : list nat) (l : loop R)
    : option (list R * loop R) :=
  match gather_result children l with
  | Some rs => Some (rs, l)
  | None =>
      match iterations with
      | 0 => None
      | S iterations' => run_until_complete iterations' children (run_once l)
      end
  end.

End gather.

Definition three_tasks : list (coroutine string) :=
  [Coroutine 7 2 "a"; Coroutine 3 0 "b"; Coroutine 5 1 "c"].

(** *** Facts about create_subprocess_with_handle *)

Example utf8_euro_split :
  utf8_decode [] [0x61; 0xE2; 0x82]%N = ([0x61]%N, [0xE2; 0x82]%N)
  ∧ utf8_decode [0xE2; 0x82]%N [0xAC; 0x62]%N = ([0x20AC; 0x62]%N, []).
Proof. split; reflexivity. Qed.

Example utf8_replace :
  utf8_decode [] [0xF0; 0x90; 0x28; 0xFF; 0xC0; 0x80]%N
  = ([0xFFFD; 0x28; 0xFFFD; 0xFFFD; 0xFFFD]%N, []).
Proof. reflexivity. Qed.

Section subprocess_facts.

Variable codec : incremental_decoder.
Variable launch : command → bool → string → result (list (list N) * Z).

Lemma written_app d1 d2 : written (d1 ++ d2) = written d1 ++ written d2.
Proof.
  induction d1 as [|[| text |] d1 IH]; simpl; try done.
  by rewrite IH, app_assoc.
Qed.

(** [read_loop] appends to its accumulators, and writes what it appends. *)
Lemma read_loop_acc reads : ∀ decoder output_copy display,
  read_loop codec reads decoder output_copy display
  = (let '(decoder', text, writes) := read_loop codec reads decoder [] [] in
     (decoder', output_copy ++ text, display ++ writes)).
Proof.
  induction reads as [|outputbytes reads IH]; intros decoder output_copy display;
    simpl.
  - by rewrite !app_nil_r.
  - destruct (bool_decide _); [by rewrite !app_nil_r|].
    destruct (decode codec decoder outputbytes) as [outputstr decoder'].
    rewrite IH. rewrite (IH decoder' outputstr [Write outputstr]).
    destruct (read_loop codec reads decoder' [] []) as [[d t] wr]. simpl.
    by rewrite <- !app_assoc.
Qed.

Lemma read_loop_written reads : ∀ decoder,
  written (read_loop codec reads decoder [] []).2 = (read_loop codec reads decoder [] []).1.2
  ∧ Forall (λ ev, ev ≠ Enter ∧ ev ≠ Exit) (read_loop codec reads decoder [] []).2.
Proof.
  induction reads as [|outputbytes reads IH]; intros decoder; simpl; [done|].
  destruct (bool_decide _); [done|].
  destruct (decode codec decoder outputbytes) as [outputstr decoder'].
  rewrite read_loop_acc. specialize (IH decoder').
  destruct (read_loop codec reads decoder' [] []) as [[d t] wr]. simpl in *.
  destruct IH as [IH1 IH2]. split; [by rewrite IH1|].
  constructor; [by split | done].
Qed.

(** What the call does once the child has started. *)
Lemma create_subprocess_with_handle_started command shell cwd display reads returncode :
  launch command shell cwd = Ok (reads, returncode) →
  create_subprocess_with_handle codec launch command shell cwd display
  = (if negb (returncode =? 0)%Z
     then Raise (CalledProcessError returncode command (captured codec reads))
     else match buffer codec (decoder_at_exit codec reads) with
          | None => Raise (AttributeError "buffer")
          | Some pending =>
              if negb (bool_decide (pending = []))
              then Raise (AssertionError ("decoder nonempty: " +:+ repr_bytes pending))
              else Ok (captured codec reads)
          end,
     display ++ [Enter] ++ (read_loop codec reads (initial codec) [] []).2 ++ [Exit]).
Proof.
  intros Hlaunch. unfold create_subprocess_with_handle, captured, decoder_at_exit.
  rewrite Hlaunch, read_loop_acc.
  destruct (read_loop codec reads (initial codec) [] []) as [[d t] wr]. simpl.
  rewrite <- !app_assoc. simpl.
  destruct (negb (returncode =? 0)%Z); [done|].
  destruct (buffer codec d) as [pending|]; [|done]. by destruct (negb _).
Qed.

(** The loop captures what it is to capture. *)
Lemma read_loop_decoded reads : ∀ decoder,
  (read_loop codec reads decoder [] []).1
  = (state_after codec decoder reads, decoded codec decoder reads).
Proof.
  induction reads as [|outputbytes reads IH]; intros decoder; simpl; [done|].
  destruct (bool_decide _); [done|].
  destruct (decode codec decoder outputbytes) as [outputstr decoder'] eqn:Hdecode.
  rewrite read_loop_acc. specialize (IH decoder').
  destruct (read_loop codec reads decoder' [] []) as [[d t] wr]. simpl in *.
  by injection IH as -> ->.
Qed.

Lemma captured_decoded reads :
  captured codec reads = decoded codec (initial codec) reads
  ∧ decoder_at_exit codec reads = state_after codec (initial codec) reads.
Proof.
  unfold captured, decoder_at_exit. by rewrite read_loop_decoded.
Qed.

End subprocess_facts.

(** The text captured through the UTF-8 decoder does not depend on where
    the output was cut into chunks. *)
Lemma utf8_decode_app input1 : ∀ pending input2,
  utf8_decode pending (input1 ++ input2)
  = (let '(text1, pending1) := utf8_decode pending input1 in
     let '(text2, pending2) := utf8_decode pending1 input2 in
     (text1 ++ text2, pending2)).
Proof.
  induction input1 as [|b input1 IH]; intros pending input2; simpl.
  - by destruct (utf8_decode pending input2).
  - destruct (utf8_byte pending b) as [text pending']. rewrite IH.
    destruct (utf8_decode pending' input1) as [text1 pending1].
    destruct (utf8_decode pending1 input2) as [text2 pending2].
    by rewrite app_assoc.
Qed.

Lemma utf8_read_loop reads : ∀ pending : list N,
  ((read_loop utf8 reads pending [] []).1.2, (read_loop utf8 reads pending [] []).1.1)
  = utf8_decode pending (stream reads).
Proof.
  induction reads as [|outputbytes reads IH]; intros pending; simpl; [done|].
  destruct (bool_decide _); [done|].
  rewrite utf8_decode_app.
  destruct (utf8_decode pending outputbytes) as [outputstr pending'].
  rewrite read_loop_acc. specialize (IH pending').
  destruct (read_loop utf8 reads pending' [] []) as [[d t] wr]. simpl in *.
  rewrite <- IH. done.
Qed.

Lemma utf8_captured_stream reads :
  captured utf8 reads = (utf8_decode [] (stream reads)).1
  ∧ decoder_at_exit utf8 reads = (utf8_decode [] (stream reads)).2.
Proof.
  unfold captured, decoder_at_exit.
  pose proof (utf8_read_loop reads []) as H. simpl in H.
  rewrite <- H. done.
Qed.

Lemma read_loop_stream (codec : incremental_decoder) reads :
  incremental codec → ∀ d,
  ((read_loop codec reads d [] []).1.2, (read_loop codec reads d [] []).1.1)
  = decode codec d (stream reads).
Proof.
  intros [Hnil Happ]. induction reads as [|outputbytes reads IH]; intros d; simpl.
  - by rewrite Hnil.
  - destruct (bool_decide _); [by rewrite Hnil|].
    rewrite Happ. destruct (decode codec d outputbytes) as [outputstr d'].
    rewrite read_loop_acc. specialize (IH d').
    destruct (read_loop codec reads d' [] []) as [[d2 t] wr]. simpl in *.
    by rewrite <- IH.
Qed.

(** With an incremental decoder, the text of the chunks is the text of
    the whole output. *)
Lemma decoded_stream (codec : incremental_decoder) reads :
  incremental codec →
  decode codec (initial codec) (stream reads)
  = (decoded codec (initial codec) reads, state_after codec (initial codec) reads).
Proof.
  intros Hincremental.
  rewrite <- (read_loop_stream codec reads Hincremental (initial codec)).
  by rewrite (read_loop_decoded codec reads (initial codec)).
Qed.

(** C6 (claim as amended). Once the child has started: a nonzero exit code
    raises CalledProcessError with the exit code, the command and all the
    text captured; exit code zero returns all the text captured, when the
    decoder has a buffer and it holds no undecoded bytes at exit. The text
    captured is the text the decoder made of the chunks read, one after
    the other ([decoded]; with an incremental decoder, the text of the
    whole output of the child), and it is the text written to the display
    handle, between its enter and its exit. *)
Theorem create_subprocess_with_handle_result (codec : incremental_decoder)
    (launch : command → bool → string → result (list (list N) * Z))
    (command : Py.command) (shell : bool) (cwd : string)
    (display : list display_event) (reads : list (list N)) (returncode : Z) :
  launch command shell cwd = Ok (reads, returncode) →
  let call := create_subprocess_with_handle codec launch command shell cwd display in
  let text := decoded codec (initial codec) reads in
  (returncode ≠ 0%Z →
     call.1 = Raise (CalledProcessError returncode command text))
  ∧ (returncode = 0%Z →
     buffer codec (state_after codec (initial codec) reads) = Some [] →
     call.1 = Ok text)
  ∧ (incremental codec →
     decode codec (initial codec) (stream reads)
     = (text, state_after codec (initial codec) reads))
  ∧ ∃ writes, call.2 = display ++ [Enter] ++ writes ++ [Exit]
              ∧ written writes = text
              ∧ Forall (λ ev, ev ≠ Enter ∧ ev ≠ Exit) writes.
Proof.
  intros Hlaunch call text. subst call text.
  rewrite (create_subprocess_with_handle_started _ _ _ _ _ _ _ _ Hlaunch). simpl.
  destruct (captured_decoded codec reads) as [-> ->].
  split; [|split; [|split]].
  - intros Hrc. apply Z.eqb_neq in Hrc. by rewrite Hrc.
  - intros -> Hbuf. simpl. by rewrite Hbuf.
  - apply decoded_stream.
  - eexists. split; [done|].
    rewrite <- (proj1 (captured_decoded codec reads)). apply read_loop_written.
Qed.

Lemma create_subprocess_with_handle_result_witness :
  create_subprocess_with_handle utf8 (prints euro_in_two 0) (Argv ["printf"]) false "." []
  = (Ok [0x61; 0x20AC; 0x62]%N,
     [Enter; Write [0x61]%N; Write [0x20AC; 0x62]%N; Exit])
  ∧ (create_subprocess_with_handle utf8 (prints euro_in_two 2) (Shell "printf") true "." []).1
    = Raise (CalledProcessError 2 (Shell "printf") [0x61; 0x20AC; 0x62]%N)
  ∧ utf8_decode [] [0x61; 0xE2; 0x82; 0xAC; 0x62]%N = ([0x61; 0x20AC; 0x62]%N, []).
Proof.
  split; [|split].
  - pose proof (create_subprocess_with_handle_result utf8 (prints euro_in_two 0)
                  (Argv ["printf"]) false "." [] _ _ eq_refl) as (_ & H & _).
    specialize (H eq_refl eq_refl).
    apply injective_projections; [exact H | reflexivity].
  - pose proof (create_subprocess_with_handle_result utf8 (prints euro_in_two 2)
                  (Shell "printf") true "." [] _ _ eq_refl) as (H & _).
    apply H. discriminate.
  - pose proof (create_subprocess_with_handle_result utf8 (prints euro_in_two 0)
                  (Argv ["printf"]) false "." [] _ _ eq_refl) as (_ & _ & H & _).
    apply H. split; [done|]. intros d input1 input2. apply utf8_decode_app.
Defined.

(** C6 (claim as stated) fails: the child exits with code zero in the
    middle of a character, and the call raises AssertionError instead of
    returning the text captured ("a"). *)
Lemma exit_zero_with_dangling_bytes :
  create_subprocess_with_handle utf8 (prints euro_cut_short 0) (Argv ["printf"]) false "." []
  = (Raise (AssertionError "decoder nonempty: b'\xe2\x82'"),
     [Enter; Write [0x61]%N; Exit])
  ∧ captured utf8 euro_cut_short = [0x61]%N.
Proof. split; reflexivity. Qed.

(** A decoder without the attribute [buffer]: the text is decoded and
    shown, and reading [decoder.buffer] after exit code zero raises
    AttributeError. *)
Example latin_1_has_no_buffer :
  create_subprocess_with_handle latin_1 (prints [[0x68; 0xE9]; [0x0A]]%N 0)
    (Argv ["printf"]) false "." []
  = (Raise (AttributeError "buffer"),
     [Enter; Write [0x68; 0xE9]%N; Write [0x0A]%N; Exit]).
Proof. reflexivity. Qed.

(** C5 (claim as amended). With undecoded bytes left in the decoder when
    the child exits, the call fails: on exit code zero the assertion fails
    (AssertionError); on a nonzero exit code CalledProcessError is raised
    first, and the buffer is not looked at. *)
Theorem decoder_buffer_asserted_on_success (codec : incremental_decoder)
    (launch : command → bool → string → result (list (list N) * Z))
    (command : Py.command) (shell : bool) (cwd : string)
    (display : list display_event) (reads : list (list N)) (returncode : Z)
    (pending : list N) :
  launch command shell cwd = Ok (reads, returncode) →
  buffer codec (decoder_at_exit codec reads) = Some pending →
  pending ≠ [] →
  let call := create_subprocess_with_handle codec launch command shell cwd display in
  (returncode = 0%Z →
     call.1 = Raise (AssertionError ("decoder nonempty: " +:+ repr_bytes pending)))
  ∧ (returncode ≠ 0%Z →
     call.1 = Raise (CalledProcessError returncode command (captured codec reads)))
  ∧ is_ok call.1 = false.
Proof.
  intros Hlaunch Hbuffer Hpending call. subst call.
  rewrite (create_subprocess_with_handle_started _ _ _ _ _ _ _ _ Hlaunch). simpl.
  rewrite Hbuffer, (bool_decide_eq_false_2 _ Hpending). simpl.
  split; [|split].
  - by intros ->.
  - intros Hrc. apply Z.eqb_neq in Hrc. by rewrite Hrc.
  - by destruct (negb _).
Qed.

Lemma decoder_buffer_asserted_on_success_witness :
  buffer utf8 (decoder_at_exit utf8 euro_cut_short) = Some [0xE2; 0x82]%N
  ∧ (create_subprocess_with_handle utf8 (prints euro_cut_short 0) (Argv ["printf"])
       false "." []).1
    = Raise (AssertionError "decoder nonempty: b'\xe2\x82'").
Proof.
  split; [reflexivity|].
  pose proof (decoder_buffer_asserted_on_success utf8 (prints euro_cut_short 0)
                (Argv ["printf"]) false "." [] _ _ _ eq_refl eq_refl) as H.
  destruct H as (H & _); [discriminate|]. exact (H eq_refl).
Defined.

(** C5 (claim as stated) fails: undecoded bytes are left at exit, the exit
    code is 1, and what is raised is CalledProcessError: no assertion is
    made on that path. *)
Lemma exit_nonzero_with_dangling_bytes :
  buffer utf8 (decoder_at_exit utf8 euro_cut_short) = Some [0xE2; 0x82]%N
  ∧ (create_subprocess_with_handle utf8 (prints euro_cut_short 1) (Argv ["printf"])
       false "." []).1
    = Raise (CalledProcessError 1 (Argv ["printf"]) [0x61]%N)
  ∧ is_assertion_error
      (create_subprocess_with_handle utf8 (prints euro_cut_short 1) (Argv ["printf"])
         false "." []).1 = false.
Proof. repeat split; reflexivity. Qed.

(** *** The display handle, chunks and plain output *)

(** X13. The display handle is entered once and exited once on every
    path, also when the child cannot be started (the error of the launch
    is raised, and nothing was written) or exits with an error; between
    the two there are only writes. *)
Theorem display_handle_entered_and_exited (codec : incremental_decoder)
    (launch : command → bool → string → result (list (list N) * Z))
    (command : Py.command) (shell : bool) (cwd : string)
    (display : list display_event) :
  ∃ writes,
    (create_subprocess_with_handle codec launch command shell cwd display).2
    = display ++ [Enter] ++ writes ++ [Exit]
    ∧ Forall (λ ev, ∃ text, ev = Write text) writes
    ∧ ∀ e, launch command shell cwd = Raise e →
        (create_subprocess_with_handle codec launch command shell cwd display).1
        = Raise e
        ∧ writes = [].
Proof.
  destruct (launch command shell cwd) as [[reads returncode]|e] eqn:Hlaunch.
  - rewrite (create_subprocess_with_handle_started _ _ _ _ _ _ _ _ Hlaunch).
    eexists. split; [done|]. split; [|done].
    eapply Forall_impl; [apply read_loop_written|].
    intros [| text |] [? ?]; try done. by exists text.
  - unfold create_subprocess_with_handle. rewrite Hlaunch.
    exists []. split; [by rewrite <- app_assoc|]. split; [constructor|].
    by intros e' [= <-].
Qed.

(** X14. With an incremental decoder the outcome does not depend on where
    the reads cut the output of the child: the same bytes with the same
    exit code give the same result (the text returned, or the error with
    the text captured), and the same text on the display. *)
Theorem result_independent_of_chunks (codec : incremental_decoder)
    (launch1 launch2 : command → bool → string → result (list (list N) * Z))
    (command : Py.command) (shell : bool) (cwd : string)
    (display : list display_event) (reads1 reads2 : list (list N))
    (returncode : Z) :
  incremental codec →
  launch1 command shell cwd = Ok (reads1, returncode) →
  launch2 command shell cwd = Ok (reads2, returncode) →
  stream reads1 = stream reads2 →
  (create_subprocess_with_handle codec launch1 command shell cwd display).1
  = (create_subprocess_with_handle codec launch2 command shell cwd display).1
  ∧ written (create_subprocess_with_handle codec launch1 command shell cwd display).2
    = written (create_subprocess_with_handle codec launch2 command shell cwd display).2.
Proof.
  intros Hinc H1 H2 Hstream.
  rewrite (create_subprocess_with_handle_started _ _ _ _ _ _ _ _ H1),
    (create_subprocess_with_handle_started _ _ _ _ _ _ _ _ H2).
  pose proof (read_loop_stream codec reads1 Hinc (initial codec)) as E1.
  pose proof (read_loop_stream codec reads2 Hinc (initial codec)) as E2.
  rewrite Hstream, <- E2 in E1. injection E1 as Htext Hdecoder.
  unfold captured, decoder_at_exit. cbn [fst snd].
  rewrite Htext, Hdecoder. split; [done|].
  rewrite !written_app. cbn [written]. rewrite !app_nil_r.
  rewrite (proj1 (read_loop_written codec reads1 _)),
    (proj1 (read_loop_written codec reads2 _)).
  by rewrite Htext.
Qed.

Lemma utf8_decode_ascii input :
  Forall (λ b, (b < 128)%N) input → utf8_decode [] input = (input, []).
Proof.
  induction 1 as [|b input Hb _ IH]; [done|].
  cbn [utf8_decode utf8_byte]. unfold utf8_start, sequence_length, in_range.
  replace (0 <=? b)%N with true by (symmetry; apply N.leb_le; lia).
  replace (b <=? 127)%N with true by (symmetry; apply N.leb_le; lia).
  cbn [andb]. by rewrite IH.
Qed.

(** X15. With UTF-8, output that is all ASCII is returned as it is when
    the child exits with 0, however it was cut into reads: no byte is left
    in the decoder, so the assertion holds; and it is what the display
    shows. *)
Theorem ascii_output_returned
    (launch : command → bool → string → result (list (list N) * Z))
    (command : Py.command) (shell : bool) (cwd : string)
    (display : list display_event) (reads : list (list N)) :
  launch command shell cwd = Ok (reads, 0%Z) →
  Forall (λ b, (b < 128)%N) (stream reads) →
  (create_subprocess_with_handle utf8 launch command shell cwd display).1
  = Ok (stream reads)
  ∧ written (create_subprocess_with_handle utf8 launch command shell cwd display).2
    = written display ++ stream reads.
Proof.
  intros Hlaunch Hascii.
  rewrite (create_subprocess_with_handle_started _ _ _ _ _ _ _ _ Hlaunch).
  destruct (utf8_captured_stream reads) as [Htext Hdecoder].
  rewrite (utf8_decode_ascii _ Hascii) in Htext, Hdecoder. cbn [fst snd] in *.
  rewrite Htext, Hdecoder. split; [done|].
  rewrite !written_app. cbn [written]. rewrite !app_nil_r.
  by rewrite (proj1 (read_loop_written utf8 reads _)), <- Htext.
Qed.

Lemma result_independent_of_chunks_witness :
  (create_subprocess_with_handle utf8 (prints euro_in_two 0) (Argv ["printf"])
     false "." []).1
  = (create_subprocess_with_handle utf8 (prints [[0x61; 0xE2; 0x82; 0xAC; 0x62]]%N 0)
       (Argv ["printf"]) false "." []).1
  ∧ written (create_subprocess_with_handle utf8 (prints euro_in_two 0)
               (Argv ["printf"]) false "." []).2
    = written (create_subprocess_with_handle utf8
                 (prints [[0x61; 0xE2; 0x82; 0xAC; 0x62]]%N 0)
                 (Argv ["printf"]) false "." []).2.
Proof.
  apply (result_independent_of_chunks utf8 (prints euro_in_two 0)
           (prints [[0x61; 0xE2; 0x82; 0xAC; 0x62]]%N 0) (Argv ["printf"]) false "."
           [] euro_in_two [[0x61; 0xE2; 0x82; 0xAC; 0x62]]%N 0).
  - split; [done|]. intros d input1 input2. apply utf8_decode_app.
  - reflexivity.
  - reflexivity.
  - reflexivity.
Defined.

Lemma ascii_output_returned_witness :
  (create_subprocess_with_handle utf8 (prints [[0x68; 0x69]; [0x0A]]%N 0)
     (Shell "echo hi") true "." []).1
  = Ok [0x68; 0x69; 0x0A]%N.
Proof.
  apply (ascii_output_returned (prints [[0x68; 0x69]; [0x0A]]%N 0)
           (Shell "echo hi") true "." [] [[0x68; 0x69]; [0x0A]]%N eq_refl).
  by_evaluation.
Defined.

(** *** Facts about stable_gather *)

Example gather_out_of_order :
  let coros := [Coroutine 7 2 "a"; Coroutine 3 0 "b"; Coroutine 5 1 "c"] in
  ∃ l, run_until_complete 3 (ident <$> coros)
         (stable_gather coros new_event_loop).2 = Some (["a"; "b"; "c"], l)
       ∧ started l = [7; 3; 5] ∧ finished l = [3; 5; 7].
Proof. eexists. vm_compute. done. Qed.

(** Python's [len(coros) == len(set(coros))]. *)
Lemma size_list_to_set_le (l : list nat) :
  size (list_to_set l : gset nat) ≤ length l
  ∧ (size (list_to_set l : gset nat) = length l → NoDup l).
Proof.
  induction l as [|x l [IHle IHnd]]; simpl.
  - split; [by vm_compute | constructor].
  - destruct (decide (x ∈ l)) as [Hin|Hnin].
    + assert ({[x]} ∪ list_to_set l = (list_to_set l : gset nat)) as ->.
      { apply set_eq. intros y. rewrite elem_of_union, elem_of_singleton,
          elem_of_list_to_set. split; [intros [->|?]; done | by right]. }
      split; lia.
    + rewrite size_union, size_singleton.
      2:{ intros y Hy1 Hy2. apply elem_of_singleton in Hy1. subst.
          by apply elem_of_list_to_set in Hy2. }
      split; [lia|]. intros H. constructor; [done|]. apply IHnd. lia.
Qed.

Lemma no_duplicates_check (l : list nat) :
  Nat.eqb (length l) (size (list_to_set l : gset nat)) = true ↔ NoDup l.
Proof.
  rewrite Nat.eqb_eq. split.
  - intros H. by apply size_list_to_set_le.
  - intros H. symmetry. by apply size_list_to_set.
Qed.

Section gather_order.

Context {R : Type}.
Variable coros : list (coroutine R).
Hypothesis distinct : NoDup (ident <$> coros).

(** The loop after [stable_gather], and after [n] iterations: every task
    has started, in the order of [coros]; those with a delay below [n] have
    finished, in the order of their delays. *)
Definition task_table : gmap nat (coroutine R) :=
  foldl (λ m c, <[ident c := c]> m) ∅ coros.

Definition completed (n : nat) : list (coroutine R) :=
  flat_map (λ k, filter (λ c, delay c = k) coros) (seq 0 n).

Definition still_waiting (n : nat) (cs : list (coroutine R)) : list (nat * nat) :=
  (λ c, (ident c, delay c - n)) <$> filter (λ c, n < delay c) cs.

Definition gathered : loop R :=
  EventLoop (ident <$> coros) task_table [] [] [] ∅.

Definition after (n : nat) : loop R :=
  EventLoop (ident <$> filter (λ c, delay c = n) coros) task_table
    (still_waiting n coros) (ident <$> coros) (ident <$> completed n)
    (foldl (λ m c, <[ident c := value c]> m) ∅ (completed n)).

Lemma async_all_spec cs : ∀ l : loop R,
  async_all cs l
  = (ident <$> cs,
     EventLoop (ready l ++ (ident <$> cs))
       (foldl (λ m c, <[ident c := c]> m) (tasks l) cs)
       (waiting l) (started l) (finished l) (results l)).
Proof.
  induction cs as [|c cs IH]; intros l; simpl.
  - rewrite app_nil_r. by destruct l.
  - rewrite IH. simpl. by rewrite <- app_assoc.
Qed.

Lemma ident_inj_on c c' :
  c ∈ coros → c' ∈ coros → ident c = ident c' → c = c'.
Proof.
  induction coros as [|x l IH]; [by intros ?%elem_of_nil|].
  simpl in distinct. apply NoDup_cons in distinct as [Hx Hl].
  intros [->|Hc]%elem_of_cons [->|Hc']%elem_of_cons Heq; try done.
  - exfalso. apply Hx. rewrite Heq. by apply list_elem_of_fmap_2.
  - exfalso. apply Hx. rewrite <- Heq. by apply list_elem_of_fmap_2.
  - by apply IH.
Qed.

Lemma foldl_insert_other {V} (f : coroutine R → V) cs : ∀ (m : gmap nat V) i,
  i ∉ ident <$> cs →
  foldl (λ m c, <[ident c := f c]> m) m cs !! i = m !! i.
Proof.
  induction cs as [|x cs IH]; intros m i Hi; simpl; [done|].
  rewrite fmap_cons, not_elem_of_cons in Hi. destruct Hi as [Hx Hcs].
  rewrite IH by done. by rewrite lookup_insert_ne.
Qed.

Lemma foldl_insert_elem {V} (f : coroutine R → V) cs c : ∀ m : gmap nat V,
  (∀ c', c' ∈ cs → ident c' = ident c → c' = c) → c ∈ cs →
  foldl (λ m c, <[ident c := f c]> m) m cs !! ident c = Some (f c).
Proof.
  induction cs as [|x cs IH]; intros m Hinj Hc; simpl;
    [by apply elem_of_nil in Hc|].
  destruct (decide (ident c ∈ ident <$> cs)) as [Hin|Hnin].
  - apply list_elem_of_fmap in Hin as (c' & Hid & Hc').
    rewrite (Hinj c') in Hc' by (by right || done).
    apply IH; [|done]. intros c'' Hc''. apply Hinj. by right.
  - apply elem_of_cons in Hc as [->|Hc].
    + rewrite foldl_insert_other by done. by rewrite lookup_insert_eq.
    + exfalso. apply Hnin. by apply list_elem_of_fmap_2.
Qed.

Lemma foldl_insert_Some {V} (f : coroutine R → V) cs : ∀ (m : gmap nat V) i v,
  foldl (λ m c, <[ident c := f c]> m) m cs !! i = Some v →
  m !! i = Some v ∨ ∃ c, c ∈ cs ∧ ident c = i ∧ v = f c.
Proof.
  induction cs as [|x cs IH]; intros m i v H; simpl in H; [by left|].
  apply IH in H as [H|(c & Hc & Hi & Hv)].
  - destruct (decide (ident x = i)) as [Hx|Hx].
    + subst i. rewrite lookup_insert_eq in H. inversion H; subst.
      right. exists x. split; [by left | done].
    + rewrite lookup_insert_ne in H by done. by left.
  - right. exists c. split; [by right | done].
Qed.

Lemma task_lookup c : c ∈ coros → task_table !! ident c = Some c.
Proof.
  intros Hc. unfold task_table.
  apply (foldl_insert_elem (λ c, c)); [|done].
  intros c' Hc' Hid. by apply ident_inj_on.
Qed.

Lemma still_waiting_snoc n cs c :
  still_waiting n (cs ++ [c])
  = still_waiting n cs ++ (if decide (n < delay c) then [(ident c, delay c - n)] else []).
Proof.
  unfold still_waiting. rewrite filter_app, fmap_app. f_equal.
  destruct (decide (n < delay c)).
  - by rewrite filter_cons_True.
  - by rewrite filter_cons_False.
Qed.

Lemma first_iteration suf : ∀ pre,
  coros = pre ++ suf →
  foldl step
    (EventLoop [] task_table (still_waiting 0 pre) (ident <$> pre)
       (ident <$> filter (λ c, delay c = 0) pre)
       (foldl (λ m c, <[ident c := value c]> m) ∅ (filter (λ c, delay c = 0) pre)))
    (ident <$> suf)
  = EventLoop [] task_table (still_waiting 0 coros) (ident <$> coros)
      (ident <$> filter (λ c, delay c = 0) coros)
      (foldl (λ m c, <[ident c := value c]> m) ∅ (filter (λ c, delay c = 0) coros)).
Proof.
  induction suf as [|c suf IH]; intros pre Hpre.
  - rewrite app_nil_r in Hpre. by subst pre.
  - assert (coros = (pre ++ [c]) ++ suf) as Hpre' by by rewrite <- app_assoc.
    rewrite <- (IH _ Hpre'). simpl. f_equal.
    unfold step at 1. simpl.
    rewrite task_lookup by (rewrite Hpre; apply elem_of_app; right; left).
    rewrite bool_decide_eq_false_2.
    2:{ pose proof distinct as Hnd. rewrite Hpre, fmap_app, fmap_cons in Hnd.
        apply NoDup_app in Hnd as (_ & Hnd & _). intros Hin.
        apply (Hnd _ Hin). left. }
    rewrite still_waiting_snoc, filter_app, !fmap_app, foldl_app.
    destruct (Nat.eqb (delay c) 0) eqn:Hd.
    + apply Nat.eqb_eq in Hd. unfold finish. simpl.
      rewrite decide_False by lia. rewrite (filter_cons_True _ c []) by done.
      by rewrite app_nil_r.
    + apply Nat.eqb_neq in Hd.
      rewrite decide_True by lia. rewrite (filter_cons_False _ c []) by done.
      simpl. by rewrite Nat.sub_0_r, !app_nil_r.
Qed.

Lemma tick n cs :
  (filter (λ w, w.2 = 0) ((λ '(i, k), (i, pred k)) <$> still_waiting n cs)).*1
  = ident <$> filter (λ c, delay c = S n) cs
  ∧ filter (λ w, w.2 ≠ 0) ((λ '(i, k), (i, pred k)) <$> still_waiting n cs)
    = still_waiting (S n) cs.
Proof.
  unfold still_waiting. induction cs as [|c cs [IH1 IH2]]; [done|].
  destruct (decide (n < delay c)) as [Hlt|Hge].
  - rewrite (filter_cons_True (λ c, n < delay c)) by done. rewrite !fmap_cons.
    destruct (decide (delay c = S n)) as [Heq|Hne].
    + rewrite (filter_cons_True (λ w : nat * nat, w.2 = 0)) by (simpl; lia).
      rewrite (filter_cons_False (λ w : nat * nat, w.2 ≠ 0)) by (simpl; lia).
      rewrite (filter_cons_True (λ c, delay c = S n)) by done.
      rewrite (filter_cons_False (λ c, S n < delay c)) by lia.
      rewrite !fmap_cons. split; [by f_equal | done].
    + rewrite (filter_cons_False (λ w : nat * nat, w.2 = 0)) by (simpl; lia).
      rewrite (filter_cons_True (λ w : nat * nat, w.2 ≠ 0)) by (simpl; lia).
      rewrite (filter_cons_False (λ c, delay c = S n)) by done.
      rewrite (filter_cons_True (λ c, S n < delay c)) by lia.
      rewrite !fmap_cons. split; [done|]. f_equal; [|done]. f_equal. lia.
  - rewrite (filter_cons_False (λ c, n < delay c)) by done.
    rewrite (filter_cons_False (λ c, delay c = S n)) by lia.
    rewrite (filter_cons_False (λ c, S n < delay c)) by lia. done.
Qed.

Lemma wake_up cs : ∀ rd W F Rm,
  (∀ c, c ∈ cs → c ∈ coros) →
  foldl step (EventLoop rd task_table W (ident <$> coros) F Rm) (ident <$> cs)
  = EventLoop rd task_table W (ident <$> coros) (F ++ (ident <$> cs))
      (foldl (λ m c, <[ident c := value c]> m) Rm cs).
Proof.
  induction cs as [|c cs IH]; intros rd W F Rm Hsub; simpl.
  - by rewrite app_nil_r.
  - unfold step at 2. simpl. rewrite task_lookup by (apply Hsub; left).
    rewrite bool_decide_eq_true_2
      by (apply list_elem_of_fmap_2, Hsub; left).
    unfold finish. simpl. rewrite IH by (intros ? ?; apply Hsub; by right).
    by rewrite <- app_assoc.
Qed.

Lemma run_once_gathered : run_once gathered = after 1.
Proof.
  unfold run_once, gathered. simpl.
  pose proof (first_iteration coros [] eq_refl) as H. simpl in H.
  unfold still_waiting at 1 in H. simpl in H. rewrite H. simpl.
  destruct (tick 0 coros) as [-> ->].
  unfold after, completed. simpl. by rewrite app_nil_r.
Qed.

Lemma run_once_after n : 1 ≤ n → run_once (after n) = after (S n).
Proof.
  intros Hn. unfold run_once, after. simpl.
  rewrite wake_up by (intros c Hc; by apply list_elem_of_filter in Hc as [_ ?]).
  simpl. destruct (tick n coros) as [-> ->].
  unfold completed. rewrite seq_S, flat_map_app. simpl.
  by rewrite app_nil_r, fmap_app, foldl_app.
Qed.

Lemma completed_elem n c : c ∈ completed n ↔ c ∈ coros ∧ delay c < n.
Proof.
  unfold completed. rewrite list_elem_of_In, in_flat_map. split.
  - intros (k & Hk & Hc). apply in_seq in Hk.
    apply list_elem_of_In, list_elem_of_filter in Hc as [Hd Hc]. split; [done | lia].
  - intros [Hc Hd]. exists (delay c). split; [apply in_seq; lia|].
    apply list_elem_of_In, list_elem_of_filter. done.
Qed.

Lemma result_lookup n c :
  c ∈ coros → delay c < n → results (after n) !! ident c = Some (value c).
Proof.
  intros Hc Hd. simpl. apply foldl_insert_elem.
  - intros c' [Hc' _]%completed_elem Hid. by apply ident_inj_on.
  - by apply completed_elem.
Qed.

Lemma result_sound n i v :
  results (after n) !! i = Some v → ∃ c, c ∈ coros ∧ ident c = i ∧ v = value c.
Proof.
  simpl. intros [H|(c & Hc & Hi & Hv)]%foldl_insert_Some; [done|].
  exists c. by apply completed_elem in Hc as [Hc _].
Qed.

Lemma gather_result_values (l : loop R) cs : ∀ rs,
  (∀ i v, results l !! i = Some v → ∃ c, c ∈ coros ∧ ident c = i ∧ v = value c) →
  (∀ c, c ∈ cs → c ∈ coros) →
  gather_result (ident <$> cs) l = Some rs → rs = value <$> cs.
Proof.
  intros rs Hsound Hsub Hrs. unfold gather_result in Hrs.
  apply mapM_Some_1 in Hrs. revert rs Hrs.
  induction cs as [|c cs IH]; intros rs Hrs.
  - by inversion Hrs.
  - rewrite fmap_cons in Hrs. inversion Hrs as [|? r ? rs' Hr Hrs']; subst.
    rewrite fmap_cons. f_equal.
    + apply Hsound in Hr as (c' & Hc' & Hid & ->).
      by rewrite (ident_inj_on c' c Hc' (Hsub c ltac:(left)) Hid).
    + apply IH; [|done]. intros c' Hc'. apply Hsub. by right.
Qed.

Lemma gather_result_complete n :
  max_list (delay <$> coros) < n →
  gather_result (ident <$> coros) (after n) = Some (value <$> coros).
Proof.
  intros Hn. unfold gather_result. apply mapM_Some_2.
  assert (∀ cs, (∀ c, c ∈ cs → c ∈ coros) →
            Forall2 (λ i r, results (after n) !! i = Some r)
              (ident <$> cs) (value <$> cs)) as H.
  { induction cs as [|c cs IH]; intros Hsub; [constructor|].
    rewrite !fmap_cons. constructor.
    - apply result_lookup; [apply Hsub; left|].
      assert (delay c ≤ max_list (delay <$> coros)); [|lia].
      apply max_list_elem_of_le, list_elem_of_fmap_2, Hsub. left.
    - apply IH. intros c' Hc'. apply Hsub. by right. }
  by apply H.
Qed.

Lemma run_until_complete_after iterations : ∀ n,
  1 ≤ n → max_list (delay <$> coros) < n + iterations →
  ∃ m, 1 ≤ m ∧ run_until_complete iterations (ident <$> coros) (after n)
                = Some (value <$> coros, after m).
Proof.
  induction iterations as [|iterations IH]; intros n Hn Hmax.
  - exists n. split; [done|]. simpl.
    rewrite gather_result_complete by lia. done.
  - destruct (gather_result (ident <$> coros) (after n)) as [rs|] eqn:Hrs.
    + exists n. split; [done|]. simpl. rewrite Hrs.
      apply gather_result_values in Hrs; [by subst | apply result_sound | done].
    + destruct (IH (S n)) as (m & Hm & Hrun); [lia | lia |].
      exists m. split; [done|]. simpl. rewrite Hrs.
      by rewrite run_once_after.
Qed.

Lemma run_until_complete_gathered iterations :
  max_list (delay <$> coros) < iterations →
  ∃ l, run_until_complete iterations (ident <$> coros) gathered
       = Some (value <$> coros, l)
       ∧ started l = ident <$> coros.
Proof.
  intros Hmax. destruct (decide (ident <$> coros = [])) as [Hnil|Hcons].
  - apply fmap_nil_inv in Hnil. exists gathered. unfold gathered.
    rewrite Hnil. by destruct iterations.
  - destruct iterations as [|iterations]; [lia|].
    destruct (run_until_complete_after iterations 1) as (m & Hm & Hrun);
      [lia | lia |].
    exists (after m). split; [|done]. simpl.
    assert (gather_result (ident <$> coros) gathered = None) as ->.
    { unfold gather_result. apply mapM_None_2.
      destruct (ident <$> coros); [done | by left]. }
    by rewrite run_once_gathered.
Qed.

Lemma stable_gather_distinct :
  stable_gather coros new_event_loop = (Ok (ident <$> coros), gathered).
Proof.
  unfold stable_gather.
  assert (Nat.eqb (length coros) (size (list_to_set (ident <$> coros) : gset nat))
          = true) as ->.
  { rewrite <- (length_fmap ident). by apply no_duplicates_check. }
  simpl. by rewrite async_all_spec.
Qed.

End gather_order.

(** C7. For coroutines that are pairwise distinct objects, [stable_gather]
    on a new event loop queues their first steps in the order of the
    arguments and returns the future of [gather] over their tasks; running
    the loop until that future is done (more iterations than the longest
    delay are enough) starts the tasks in exactly that order and yields
    their results in the order of the arguments, whatever the delays, that
    is, whatever the order in which they finish. When the same coroutine is
    passed twice the assertion fails, and the loop is left as it was:
    nothing has been scheduled. *)
Theorem stable_gather_order {R : Type} (coros : list (coroutine R)) :
  (NoDup (ident <$> coros) →
     stable_gather coros new_event_loop = (Ok (ident <$> coros), gathered coros)
     ∧ ready (gathered coros) = ident <$> coros
     ∧ started (gathered coros) = []
     ∧ ∀ iterations, max_list (delay <$> coros) < iterations →
         ∃ l, run_until_complete iterations (ident <$> coros) (gathered coros)
              = Some (value <$> coros, l)
              ∧ started l = ident <$> coros)
  ∧ (¬ NoDup (ident <$> coros) →
     ∀ l, stable_gather coros l
          = (Raise (AssertionError "no duplicates allowed"), l)).
Proof.
  split.
  - intros Hdistinct. split; [by apply stable_gather_distinct|].
    split; [done|]. split; [done|].
    intros iterations Hmax. by apply run_until_complete_gathered.
  - intros Hdup l. unfold stable_gather.
    destruct (Nat.eqb _ _) eqn:Hcheck; [|done].
    exfalso. apply Hdup. apply no_duplicates_check.
    by rewrite length_fmap.
Qed.

Lemma stable_gather_order_witness :
  (∃ l, run_until_complete 3 [7; 3; 5] (gathered three_tasks)
        = Some (["a"; "b"; "c"], l)
        ∧ started l = [7; 3; 5])
  ∧ stable_gather (three_tasks ++ [Coroutine 3 0 "b"]) new_event_loop
    = (Raise (AssertionError "no duplicates allowed"), new_event_loop).
Proof.
  split.
  - destruct (stable_gather_order three_tasks) as [H _].
    destruct H as (_ & _ & _ & H).
    + repeat constructor; by_evaluation.
    + apply (H 3). vm_compute. lia.
  - destruct (stable_gather_order (three_tasks ++ [Coroutine 3 0 "b"])) as [_ H].
    apply H. intros Hnd. vm_compute in Hnd.
    apply NoDup_cons in Hnd as [_ Hnd]. apply NoDup_cons in Hnd as [Hnd _].
    apply Hnd. by_evaluation.
Defined.

Lemma tasks_registered {R : Type} (cs : list (coroutine R)) :
  ∀ m : gmap nat (coroutine R),
  NoDup (ident <$> cs) →
  (∀ c, c ∈ cs → foldl (λ m c, <[ident c := c]> m) m cs !! ident c = Some c)
  ∧ (∀ i, i ∉ ident <$> cs → foldl (λ m c, <[ident c := c]> m) m cs !! i = m !! i).
Proof.
  induction cs as [|c0 cs IH]; intros m Hnd.
  - split; [by intros c ?%elem_of_nil | done].
  - rewrite fmap_cons in Hnd. apply NoDup_cons in Hnd as [Hc0 Hnd].
    destruct (IH (<[ident c0 := c0]> m) Hnd) as [IH1 IH2]. split.
    + intros c [->|Hc]%elem_of_cons; cbn [foldl].
      * by rewrite IH2, lookup_insert_eq.
      * by apply IH1.
    + intros i Hi. rewrite fmap_cons in Hi.
      apply not_elem_of_cons in Hi as [Hne Hi]. cbn [foldl].
      by rewrite IH2, lookup_insert_ne.
Qed.

(** X16. On any event loop, [stable_gather] of distinct coroutines makes
    one task per coroutine and queues their first steps behind the handles
    already queued, in the order of the arguments; it runs nothing itself:
    what has started, finished or is waiting, the results and the other
    tasks are as before. *)
Theorem stable_gather_queues_behind {R : Type} (coros : list (coroutine R))
    (l : loop R) :
  NoDup (ident <$> coros) →
  ∃ l', stable_gather coros l = (Ok (ident <$> coros), l')
    ∧ ready l' = ready l ++ (ident <$> coros)
    ∧ (∀ c, c ∈ coros → tasks l' !! ident c = Some c)
    ∧ (∀ i, i ∉ ident <$> coros → tasks l' !! i = tasks l !! i)
    ∧ waiting l' = waiting l ∧ started l' = started l
    ∧ finished l' = finished l ∧ results l' = results l.
Proof.
  intros Hdistinct. unfold stable_gather.
  rewrite <- (length_fmap ident coros).
  rewrite (proj2 (no_duplicates_check _) Hdistinct). cbn [negb].
  rewrite async_all_spec. eexists. split; [done|]. cbn [ready tasks].
  split; [done|].
  destruct (tasks_registered coros (tasks l) Hdistinct) as [H1 H2].
  done.
Qed.

Lemma stable_gather_queues_behind_witness :
  ∃ l', stable_gather three_tasks
          (EventLoop [9] {[9 := Coroutine 9 0 "z"]} [] [] [] ∅)
        = (Ok [7; 3; 5], l')
    ∧ ready l' = [9; 7; 3; 5]
    ∧ started l' = [].
Proof.
  destruct (stable_gather_queues_behind three_tasks
              (EventLoop [9] {[9 := Coroutine 9 0 "z"]} [] [] [] ∅))
    as (l' & H1 & H2 & _ & _ & _ & H3 & _).
  - repeat constructor; by_evaluation.
  - exists l'. split; [exact H1|]. split; [exact H2 | exact H3].
Defined.

End async.

(** ** The tree cache (peru/cache.py) *)

Module cache.

(** Modelled from the spec: peru/cache.py itself (the [Cache] class with
    [import_tree], [export_tree] and [merge_trees]) is not among the
    sources; only its tests are (tests/test_cache.py). The definitions
    below follow the specification of the TreeStore and of WorkingCopySync.

    The content of a working copy, and of a tree, is what the tests'
    [create_dir] and [assert_contents] take it to be: the content of every
    file by its path, a path being its list of segments. WorkingCopySync
    ([export_tree] below) and [merge_trees] are given on contents. The
    trees themselves live in the object store of [Cache], under their
    identities; [Cache.import_tree] writes them and [Cache.export_tree]
    reads them back. The index cache saves rehashing and decides nothing;
    it is left out.

    A local file at a path that the tree adds (a path of the tree that
    the previous tree, or the empty tree without one, does not record) is
    untracked and in the way: the export does not overwrite it without
    [force], whatever it holds (test_export_with_existing_files expects an
    identical one to block, too). *)

(** A path as the caller writes it, in segments: redundant separators,
    "." segments and trailing slashes do not count. *)
Definition normalize (path : string) : list string :=
  filter (λ x, x ≠ "" ∧ x ≠ ".") (git_plugin.split_sep path "").

(** Modelled from the spec: the dirty paths of WorkingCopySync, with the
    local content found there. A path is dirty when [dest_dir] has a file
    there whose content differs from the one [recorded]; a path missing
    from [dest_dir] is not. *)
Definition dirty_paths (recorded dest_dir : gmap (list string) string)
    : gmap (list string) string :=
  merge (λ r d, match r, d with
                | Some c, Some c' => if decide (c = c') then None else Some c'
                | _, _ => None
                end) recorded dest_dir.

(** Modelled from the spec: the local files that are in the way of an
    export, at a path that [tree] has and [previous] does not record. They
    are untracked, and writing the tree would overwrite them. *)
Definition collisions (tree previous dest_dir : gmap (list string) string)
    : gmap (list string) string :=
  filter (λ e, is_Some (tree !! e.1) ∧ previous !! e.1 = None) dest_dir.

(** Modelled from the spec: WorkingCopySync, to which
    [export_tree(tree, dest_dir, previous_tree, force)] delegates, on the
    content of the trees. Without [previous_tree] the previous tree is the
    empty tree.
    A dirty path or a local file in the way fails without [force] and
    writes nothing. Otherwise [dest_dir] is made to reflect [tree] on
    every path of [tree] or [previous_tree]: the files of [previous_tree]
    are removed, those of [tree] written, and the rest is left alone. *)
Definition export_tree (tree dest_dir : gmap (list string) string)
    (previous_tree : option (gmap (list string) string)) (force : bool)
    : result unit * gmap (list string) string :=
  let previous := default ∅ previous_tree in
  if negb force
     && negb (bool_decide (dirty_paths previous dest_dir = ∅
                           ∧ collisions tree previous dest_dir = ∅))
  then (Raise DirtyWorkingCopyError, dest_dir)
  else (Ok (), tree ∪ (dest_dir ∖ previous)).

(** What [tree] holds at or below [prefix]. *)
Definition subtree (prefix : list string) (tree : gmap (list string) string)
    : gmap (list string) string :=
  filter (λ e, prefix `prefix_of` e.1) tree.

(** Modelled from the spec: [merge_trees(tree_a, tree_b, prefix)]. It
    fails when the normalized prefix already resolves in [tree_a], to a
    file or to a subtree that is not empty; otherwise [tree_b] goes below
    the prefix. *)
Definition merge_trees (tree_a : option (gmap (list string) string))
    (tree_b : gmap (list string) string) (prefix : string)
    : result (gmap (list string) string) :=
  let a := default ∅ tree_a in
  let p := normalize prefix in
  if negb (bool_decide (subtree p a = ∅)) then Raise MergeConflictError
  else Ok (kmap (app p) tree_b ∪ a).

(** [prefix] resolves in [tree] to a file, or to a subtree with a file in
    it. *)
Definition resolves (tree : gmap (list string) string) (prefix : list string) : Prop :=
  ∃ q, is_Some (tree !! (prefix ++ q)).

(** *** The object store *)

(** Modelled from the spec: a directory on disk, as [import_tree] walks
    it: files, and directories with their children by name. *)
#[warnings="-register-all"]
Inductive node : Type :=
| File (content : string)
| Directory (children : gmap string node).

(** The files of a directory by path: its content. *)
Fixpoint files (n : node) : gmap (list string) string :=
  match n with
  | File content => {[ [] := content ]}
  | Directory children =>
      map_fold (λ name child below, kmap (cons name) (files child) ∪ below) ∅ children
  end.

Fixpoint depth (n : node) : nat :=
  match n with
  | File _ => 0
  | Directory children => S (map_fold (λ _ child deepest, depth child `max` deepest) 0 children)
  end.

(** Modelled from the spec: the filters of [import_tree]. With picks, only
    the top-level paths named are taken; what is excluded is left out with
    all that lies below it, at any depth, picked or not. *)
Definition picked (picks : list string) (source_dir : gmap string node)
    : gmap string node :=
  filter (λ e, picks = [] ∨ [e.1] ∈ normalize <$> picks) source_dir.

Fixpoint without (excludes : list (list string)) (path : list string) (n : node) : node :=
  match n with
  | File content => File content
  | Directory children =>
      Directory (map_imap (λ name child,
                   if decide (path ++ [name] ∈ excludes) then None
                   else Some (without excludes (path ++ [name]) child)) children)
  end.

(** Modelled from the spec: an entry of a tree, [{type, content_hash}],
    and the objects of the store: a blob is the content of a file, a tree
    maps a path segment to the entry of a blob or of another tree. [H] is
    the type of the hashes. *)
Inductive entry_type : Type := BLOB_TYPE | TREE_TYPE.

Record Entry (H : Type) : Type := {
  type : entry_type;
  content_hash : H
}.
Arguments type {H} e.
Arguments content_hash {H} e.

Inductive object (H : Type) : Type :=
| Blob (content : string)
| Tree (entries : gmap string (Entry H)).
Arguments Blob {H} content.
Arguments Tree {H} entries.

#[global] Instance entry_type_eq_dec : EqDecision entry_type.
Proof. solve_decision. Defined.

#[global] Instance Entry_eq_dec `{EqDecision H} : EqDecision (Entry H).
Proof. solve_decision. Defined.

#[global] Instance object_eq_dec `{EqDecision H} : EqDecision (object H).
Proof. solve_decision. Defined.

#[global] Instance entry_type_countable : Countable entry_type.
Proof.
  apply (inj_countable' (λ t, match t with BLOB_TYPE => true | TREE_TYPE => false end)
           (λ b : bool, if b then BLOB_TYPE else TREE_TYPE)).
  by intros [].
Defined.

#[global] Instance Entry_countable `{Countable H} : Countable (Entry H).
Proof.
  apply (inj_countable' (λ e, (type e, content_hash e))
           (λ p, {| type := p.1; content_hash := p.2 |})).
  by intros [].
Defined.

#[global] Instance object_countable `{Countable H} : Countable (object H).
Proof.
  apply (inj_countable'
           (λ o, match o with Blob content => inl content | Tree entries => inr entries end)
           (λ s : string + gmap string (Entry H),
              match s with inl content => Blob content | inr entries => Tree entries end)).
  by intros [].
Defined.

Module Cache.

Section object_store.

(** [hash_object] is the hash of the store. *)
Context `{Countable H}.
Variable hash_object : object H → H.

(** The store, a [gmap H (object H)]: the objects written so far, each
    under its hash. Nothing is ever removed from it. *)

Definition write_object (o : object H) (objects : gmap H (object H)) : gmap H (object H) :=
  <[hash_object o := o]> objects.

(** Modelled from the spec: the entry that names a file or a directory,
    its type and the hash of its object. The object of a directory lists the entries of its
    children, so it is known once theirs are: trees are assembled bottom
    up. *)
Fixpoint tree_entry (n : node) : Entry H :=
  match n with
  | File content =>
      {| type := BLOB_TYPE; content_hash := hash_object (Blob content) |}
  | Directory children =>
      {| type := TREE_TYPE;
         content_hash := hash_object (Tree (tree_entry <$> children)) |}
  end.

Definition object_of (n : node) : object H :=
  match n with
  | File content => Blob content
  | Directory children => Tree (tree_entry <$> children)
  end.

(** Modelled from the spec: every file is written as a blob and every
    directory as a tree, the children first. *)
Fixpoint write (n : node) (objects : gmap H (object H)) : gmap H (object H) :=
  match n with
  | File content => write_object (Blob content) objects
  | Directory children =>
      write_object (Tree (tree_entry <$> children))
        (map_fold (λ _ child objects, write child objects) objects children)
  end.

(** Modelled from the spec: [import_tree(source_dir, excludes, picks)]:
    the identity of the root tree, and the store with the objects
    written. The source directory is only read. *)
Definition import_tree (source_dir : gmap string node) (excludes picks : list string)
    (objects : gmap H (object H)) : H * gmap H (object H) :=
  let included :=
    without (normalize <$> excludes) [] (Directory (picked picks source_dir)) in
  (content_hash (tree_entry included), write included objects).

(** Modelled from the spec: what the store holds under an entry, read
    back: a file from a blob, a directory from a tree and from what its
    entries name. [fuel] bounds
    the depth; an entry that names nothing in the store, or an object of
    the other type, gives nothing. *)
Fixpoint read (fuel : nat) (objects : gmap H (object H)) (e : Entry H) : option node :=
  match fuel with
  | 0 => None
  | S fuel' =>
      match objects !! content_hash e, type e with
      | Some (Blob content), BLOB_TYPE => Some (File content)
      | Some (Tree entries), TREE_TYPE =>
          let children := omap (read fuel' objects) entries in
          if decide (dom children = dom entries) then Some (Directory children)
          else None
      | _, _ => None
      end
  end.

(** Modelled from the spec: the content of the tree with identity [tree]. *)
Definition tree_files (fuel : nat) (objects : gmap H (object H)) (tree : H)
    : option (gmap (list string) string) :=
  files <$> read fuel objects {| type := TREE_TYPE; content_hash := tree |}.

(** Modelled from the spec: [export_tree(tree, dest_dir, previous_tree,
    force)] on tree identities: the trees are read from the store and
    WorkingCopySync does the rest. An identity that names no tree of the
    store gives nothing. *)
Definition export_tree (fuel : nat) (objects : gmap H (object H)) (tree : H)
    (dest_dir : gmap (list string) string) (previous_tree : option H) (force : bool)
    : option (result unit * gmap (list string) string) :=
  match tree_files fuel objects tree with
  | None => None
  | Some content =>
      match previous_tree with
      | None => Some (export_tree content dest_dir None force)
      | Some previous =>
          match tree_files fuel objects previous with
          | None => None
          | Some previous_content =>
              Some (export_tree content dest_dir (Some previous_content) force)
          end
      end
  end.

(** One import after another. *)
Definition import_all (imports : list (gmap string node * list string * list string))
    (objects : gmap H (object H)) : gmap H (object H) :=
  foldl (λ objects '(source_dir, excludes, picks),
           (import_tree source_dir excludes picks objects).2) objects imports.

(** The store has every object of [n] under its hash. *)
Inductive below : node → node → Prop :=
| below_refl n : below n n
| below_child m name child children :
    children !! name = Some child → below m child → below m (Directory children).

Definition stored (objects : gmap H (object H)) (n : node) : Prop :=
  ∀ m, below m n → objects !! hash_object (object_of m) = Some (object_of m).

End object_store.

End Cache.

(** The directory of the tests' [setUp], with its subdirectory, and an
    empty file in a nested directory beside an empty directory. *)
Definition content_dir : gmap string node :=
  {[ "a" := File "foo";
     "b" := Directory {[ "c" := File "bar"; "d" := File "baz" ]} ]}.

Definition empty_file_dir : gmap string node :=
  {[ "x" := Directory {[ "y" := Directory {[ "z" := File "" ]} ]};
     "e" := Directory ∅ ]}.

(** The directory of the tests' [setUp], and the edits the tests make. *)
Definition content : gmap (list string) string :=
  {[ ["a"] := "foo"; ["b"; "c"] := "bar"; ["b"; "d"] := "baz" ]}.

Definition new_content : gmap (list string) string :=
  <[ ["newfile"] := "newfile stuff" ]> (<[ ["a"] := "foo different" ]> content).

(** What test_merge_trees expects of the first merge. *)
Definition merged_content : gmap (list string) string :=
  {[ ["a"] := "foo"; ["b"; "c"] := "bar"; ["b"; "d"] := "baz";
     ["subdir"; "a"] := "foo"; ["subdir"; "b"; "c"] := "bar";
     ["subdir"; "b"; "d"] := "baz" ]}.

Lemma dirty_paths_lookup (recorded dest_dir : gmap (list string) string) p :
  dirty_paths recorded dest_dir !! p
  = match recorded !! p, dest_dir !! p with
    | Some c, Some c' => if decide (c = c') then None else Some c'
    | _, _ => None
    end.
Proof.
  unfold dirty_paths. rewrite lookup_merge.
  by destruct (recorded !! p), (dest_dir !! p).
Qed.

(** A dirty path is one where the local file differs from the recorded one. *)
Lemma dirty_paths_clean (recorded dest_dir : gmap (list string) string) :
  dirty_paths recorded dest_dir = ∅
  ↔ ∀ p c c', recorded !! p = Some c → dest_dir !! p = Some c' → c = c'.
Proof.
  rewrite map_empty. split.
  - intros H p c c' Hr Hd. specialize (H p).
    rewrite dirty_paths_lookup, Hr, Hd in H. by destruct (decide (c = c')).
  - intros H p. rewrite dirty_paths_lookup.
    destruct (recorded !! p) as [c|] eqn:Hr; [|done].
    destruct (dest_dir !! p) as [c'|] eqn:Hd; [|done].
    by rewrite decide_True by by eapply H.
Qed.

(** Nothing is in the way when no local file sits at a path the tree adds. *)
Lemma collisions_clean (tree previous dest_dir : gmap (list string) string) :
  collisions tree previous dest_dir = ∅
  ↔ ∀ p, is_Some (tree !! p) → previous !! p = None → dest_dir !! p = None.
Proof.
  unfold collisions. rewrite map_empty. split.
  - intros H p Ht Hp. specialize (H p).
    apply map_lookup_filter_None in H as [H|H]; [done|].
    destruct (dest_dir !! p) as [c|] eqn:Hd; [|done].
    exfalso. by apply (H c).
  - intros H p. apply map_lookup_filter_None.
    destruct (dest_dir !! p) as [c|] eqn:Hd; [|by left].
    right. intros c' _ [Ht Hp]. simpl in *. rewrite (H p Ht Hp) in Hd. done.
Qed.

(** What a successful export leaves at each path. *)
Lemma exported_lookup (tree dest_dir previous : gmap (list string) string) p :
  (tree ∪ (dest_dir ∖ previous)) !! p
  = match tree !! p with
    | Some c => Some c
    | None => match previous !! p with
              | Some _ => None
              | None => dest_dir !! p
              end
    end.
Proof.
  rewrite lookup_union, lookup_difference.
  destruct (tree !! p), (previous !! p), (dest_dir !! p); done.
Qed.

(** C1. A file of the previous tree [T] that is present in [D] with another
    content makes [export_tree(new_tree, D, previous_tree=T)] without
    force fail with DirtyWorkingCopyError and leave [D] as it is, whatever
    [new_tree] holds at that path. *)
Theorem export_tree_dirty_fails (T new_tree D : gmap (list string) string)
    (p : list string) (recorded edited : string) :
  T !! p = Some recorded → D !! p = Some edited → recorded ≠ edited →
  export_tree new_tree D (Some T) false = (Raise DirtyWorkingCopyError, D).
Proof.
  intros HT HD Hne. unfold export_tree. simpl.
  rewrite bool_decide_eq_false_2; [done|].
  intros [Hclean _]. apply Hne. by eapply dirty_paths_clean.
Qed.

Lemma export_tree_dirty_fails_witness :
  export_tree new_content (<[ ["b"; "c"] := "bar dirty" ]> content)
    (Some content) false
  = (Raise DirtyWorkingCopyError, <[ ["b"; "c"] := "bar dirty" ]> content).
Proof.
  apply (export_tree_dirty_fails content new_content _ ["b"; "c"] "bar" "bar dirty");
    [reflexivity | reflexivity | discriminate].
Defined.

Lemma export_tree_into_empty (tree : gmap (list string) string)
    (previous_tree : option (gmap (list string) string)) (force : bool) :
  export_tree tree ∅ previous_tree force = (Ok (), tree).
Proof.
  unfold export_tree. rewrite bool_decide_eq_true_2.
  2:{ split; [|apply map_filter_empty].
      apply dirty_paths_clean. intros p c c' _ Hd. by rewrite lookup_empty in Hd. }
  rewrite andb_false_r. f_equal. apply map_eq. intros p.
  rewrite exported_lookup, lookup_empty.
  by destruct (tree !! p), (default ∅ previous_tree !! p).
Qed.

(** **** What is written to the store can be read back *)

Lemma depth_child (children : gmap string node) name child :
  children !! name = Some child → depth child < depth (Directory children).
Proof.
  intros Hchild. cbn [depth].
  rewrite (map_fold_delete_L _ _ name child children); [lia| |done].
  intros. lia.
Qed.

Lemma node_ind' (P : node → Prop) :
  (∀ content, P (File content)) →
  (∀ children, map_Forall (λ _ child, P child) children → P (Directory children)) →
  ∀ n, P n.
Proof.
  intros Hfile Hdirectory n.
  remember (depth n) as k eqn:Hk. revert n Hk.
  induction k as [k IH] using lt_wf_ind. intros [content|children] ->.
  - apply Hfile.
  - apply Hdirectory. intros name child Hchild.
    by eapply IH; [eapply depth_child|].
Qed.

(** A fold over the children keeps what every step keeps. *)
Lemma map_fold_preserves {A B} (Q : A → Prop) (R : B → Prop)
    (f : string → A → B → B) (b : B) (m : gmap string A) :
  R b → (∀ i x r, Q x → R r → R (f i x r)) →
  map_Forall (λ _ x, Q x) m → R (map_fold f b m).
Proof.
  intros Hb Hstep.
  apply (map_fold_weak_ind (λ r m', map_Forall (λ _ x, Q x) m' → R r)); [done|].
  intros i x m' r Hi IH Hall. apply Hstep.
  - apply (Hall i). by rewrite lookup_insert_eq.
  - apply IH. intros j y Hj. apply (Hall j).
    rewrite lookup_insert_ne; [done|]. by intros ->; rewrite Hi in Hj.
Qed.

(** A fold over the children has what the step of each child brings, when
    the later steps keep it. *)
Lemma map_fold_establishes {A B} (Q : A → Prop) (R : A → B → Prop)
    (f : string → A → B → B) (b : B) (m : gmap string A) :
  (∀ i x r, Q x → R x (f i x r)) →
  (∀ i x r y, R y r → R y (f i x r)) →
  map_Forall (λ _ x, Q x) m →
  ∀ j y, m !! j = Some y → R y (map_fold f b m).
Proof.
  intros Hown Hlater.
  apply (map_fold_weak_ind
           (λ r m', map_Forall (λ _ x, Q x) m' → ∀ j y, m' !! j = Some y → R y r));
    [by intros _ j y ?|].
  intros i x m' r Hi IH Hall j y Hj.
  destruct (decide (j = i)) as [->|Hne].
  - rewrite lookup_insert_eq in Hj. injection Hj as <-. apply Hown.
    apply (Hall i). by rewrite lookup_insert_eq.
  - rewrite lookup_insert_ne in Hj by done. apply Hlater. eapply IH; [|done].
    intros k z Hk. apply (Hall k).
    rewrite lookup_insert_ne; [done|]. by intros ->; rewrite Hi in Hk.
Qed.

Lemma picked_all (source_dir : gmap string node) : picked [] source_dir = source_dir.
Proof. apply map_filter_id. intros. by left. Qed.

Lemma without_nothing (n : node) : ∀ path, without [] path n = n.
Proof.
  induction n as [content|children IH] using node_ind'; intros path; [done|].
  cbn [without]. f_equal. apply map_eq. intros name.
  rewrite map_lookup_imap. destruct (children !! name) as [child|] eqn:Hchild; [|done].
  simpl. by rewrite (IH name child Hchild).
Qed.

Section object_store_facts.

Context `{Countable H}.
Variable hash_object : object H → H.

(** No two objects have the same hash: comparing identities is comparing
    content. *)
Hypothesis hash_object_inj : Inj (=) (=) hash_object.

Lemma below_trans (m n k : node) :
  Cache.below m n → Cache.below n k → Cache.below m k.
Proof.
  intros Hmn Hnk. induction Hnk as [|n name child children Hchild _ IH]; [done|].
  eapply Cache.below_child; [done|]. by apply IH.
Qed.

Lemma stored_child (objects : gmap H (object H)) children name child :
  children !! name = Some child →
  Cache.stored hash_object objects (Directory children) →
  Cache.stored hash_object objects child.
Proof.
  intros Hchild Hstored m Hm. apply Hstored.
  by eapply Cache.below_child.
Qed.

(** Writing never replaces an object by another. *)
Lemma write_object_stored (o : object H) (objects : gmap H (object H)) (n : node) :
  Cache.stored hash_object objects n →
  Cache.stored hash_object (Cache.write_object hash_object o objects) n.
Proof.
  intros Hstored m Hm. unfold Cache.write_object.
  destruct (decide (hash_object o = hash_object (Cache.object_of hash_object m)))
    as [Heq|Hne].
  - apply hash_object_inj in Heq as ->. apply lookup_insert_eq.
  - rewrite lookup_insert_ne by done. by apply Hstored.
Qed.

Lemma write_stored (x : node) : ∀ (objects : gmap H (object H)) (n : node),
  Cache.stored hash_object objects n →
  Cache.stored hash_object (Cache.write hash_object x objects) n.
Proof.
  induction x as [content|children IH] using node_ind'; intros objects n Hstored.
  - by apply write_object_stored.
  - cbn [Cache.write]. apply write_object_stored.
    apply (map_fold_preserves
             (λ child, ∀ objects, Cache.stored hash_object objects n →
                         Cache.stored hash_object (Cache.write hash_object child objects) n)
             (λ objects, Cache.stored hash_object objects n)); [done| |].
    + intros _ child r Hchild Hr. by apply Hchild.
    + intros name child Hchild objects' Hstored'. by eapply IH.
Qed.

(** After [write] the store has every object of what was written. *)
Lemma write_own (n : node) : ∀ objects : gmap H (object H),
  Cache.stored hash_object (Cache.write hash_object n objects) n.
Proof.
  induction n as [content|children IH] using node_ind'; intros objects.
  - intros m Hm. inversion Hm; subst. unfold Cache.write, Cache.write_object.
    by rewrite lookup_insert_eq.
  - intros m Hm. cbn [Cache.write].
    inversion Hm as [|? name child ? Hchild Hbelow]; subst.
    + unfold Cache.write_object. by rewrite lookup_insert_eq.
    + refine (write_object_stored _ _ child _ m Hbelow).
      apply (map_fold_establishes
               (λ child, ∀ objects,
                  Cache.stored hash_object (Cache.write hash_object child objects) child)
               (λ child objects, Cache.stored hash_object objects child)
               (λ _ child objects, Cache.write hash_object child objects)
               objects children) with name; [| |done|done].
      * intros _ x r Hx. apply Hx.
      * intros _ x r y Hy. by apply write_stored.
Qed.

(** What the store has can be read back, with fuel for its depth. *)
Lemma read_stored (fuel : nat) : ∀ (objects : gmap H (object H)) (n : node),
  Cache.stored hash_object objects n → depth n < fuel →
  Cache.read fuel objects (Cache.tree_entry hash_object n) = Some n.
Proof.
  induction fuel as [|fuel IH]; intros objects n Hstored Hdepth; [lia|].
  pose proof (Hstored n (Cache.below_refl n)) as Hobject.
  destruct n as [content|children]; cbn [Cache.read Cache.tree_entry type content_hash];
    cbn [Cache.object_of] in Hobject; rewrite Hobject; [done|].
  assert (omap (Cache.read fuel objects) (Cache.tree_entry hash_object <$> children)
          = children) as ->.
  { apply map_eq. intros name. rewrite lookup_omap, lookup_fmap.
    destruct (children !! name) as [child|] eqn:Hchild; [|done]. simpl.
    apply IH; [by eapply stored_child|].
    pose proof (depth_child _ _ _ Hchild). lia. }
  by rewrite dom_fmap_L, decide_True.
Qed.

Lemma import_tree_stored (source_dir : gmap string node) (excludes picks : list string)
    (objects : gmap H (object H)) (n : node) :
  Cache.stored hash_object objects n →
  Cache.stored hash_object
    (Cache.import_tree hash_object source_dir excludes picks objects).2 n.
Proof. apply write_stored. Qed.

Lemma import_all_stored imports : ∀ (objects : gmap H (object H)) (n : node),
  Cache.stored hash_object objects n →
  Cache.stored hash_object (Cache.import_all hash_object imports objects) n.
Proof.
  induction imports as [|[[source_dir excludes] picks] imports IH];
    intros objects n Hstored; [done|].
  apply IH. by apply import_tree_stored.
Qed.

Lemma export_tree_stored (fuel : nat) (objects : gmap H (object H))
    (source_dir : gmap string node) (force : bool) :
  Cache.stored hash_object objects (Directory source_dir) →
  depth (Directory source_dir) < fuel →
  Cache.export_tree fuel objects
    (content_hash (Cache.tree_entry hash_object (Directory source_dir))) ∅ None force
  = Some (Ok (), files (Directory source_dir)).
Proof.
  intros Hstored Hdepth. unfold Cache.export_tree, Cache.tree_files.
  change {| type := TREE_TYPE;
            content_hash :=
              content_hash (Cache.tree_entry hash_object (Directory source_dir)) |}
    with (Cache.tree_entry hash_object (Directory source_dir)).
  rewrite read_stored by done. simpl. by rewrite export_tree_into_empty.
Qed.

End object_store_facts.

(** C2. With a hash that has no collisions, exporting the tree that
    [import_tree(D)] returns into an empty directory gives the files of [D]
    back, path by path and byte by byte, empty files and nested
    directories included. The same export of the same identity gives the
    same content again after any further imports into the store: what was
    written is never replaced. ([fuel] bounds the depth of the trees that
    are read; more than the depth of [D] is enough.) *)
Theorem export_import_round_trip `{Countable H} (hash_object : object H → H)
    (D : gmap string node) (objects : gmap H (object H))
    (later : list (gmap string node * list string * list string))
    (fuel : nat) (force : bool) :
  Inj (=) (=) hash_object →
  depth (Directory D) < fuel →
  let tree := (Cache.import_tree hash_object D [] [] objects).1 in
  let objects' := (Cache.import_tree hash_object D [] [] objects).2 in
  Cache.export_tree fuel objects' tree ∅ None force
  = Some (Ok (), files (Directory D))
  ∧ Cache.export_tree fuel (Cache.import_all hash_object later objects') tree
      ∅ None force
    = Some (Ok (), files (Directory D)).
Proof.
  intros Hinj Hdepth tree objects'. subst tree objects'.
  unfold Cache.import_tree. rewrite picked_all, without_nothing.
  cbn [fst snd fmap list_fmap]. split.
  - apply export_tree_stored; [|done]. by apply write_own.
  - apply export_tree_stored; [|done].
    apply import_all_stored; [done|]. by apply write_own.
Qed.

Example files_content_dir :
  files (Directory content_dir) = content
  ∧ files (Directory empty_file_dir) = {[ ["x"; "y"; "z"] := "" ]}.
Proof. split; reflexivity. Qed.

Lemma export_import_round_trip_witness :
  Cache.export_tree 4
    (Cache.import_tree (encode (A:=object positive)) empty_file_dir [] []
       (Cache.import_tree encode content_dir [] [] ∅).2).2
    (Cache.import_tree (encode (A:=object positive)) empty_file_dir [] []
       (Cache.import_tree encode content_dir [] [] ∅).2).1
    ∅ None false
  = Some (Ok (), {[ ["x"; "y"; "z"] := "" ]})
  ∧ Cache.export_tree 4
      (Cache.import_all (encode (A:=object positive))
         [(content_dir, ["b/c"], ["b"])]
         (Cache.import_tree (encode (A:=object positive)) empty_file_dir [] []
            (Cache.import_tree encode content_dir [] [] ∅).2).2)
      (Cache.import_tree (encode (A:=object positive)) empty_file_dir [] []
         (Cache.import_tree encode content_dir [] [] ∅).2).1
      ∅ None false
    = Some (Ok (), {[ ["x"; "y"; "z"] := "" ]}).
Proof.
  pose proof (export_import_round_trip (encode (A:=object positive)) empty_file_dir
                (Cache.import_tree encode content_dir [] [] ∅).2
                [(content_dir, ["b/c"], ["b"])] 4 false) as Hround.
  destruct files_content_dir as [_ <-].
  apply Hround; [apply _ | vm_compute; lia].
Defined.

(** C4. A path of the previous tree that is missing from [dest_dir] is
    never dirty, and never in the way, whatever the tree and the rest of
    [dest_dir] are. When nothing else stops the export (every file of the
    previous tree that is still there is unchanged, and no local file sits
    at a path the tree adds) it succeeds without force; afterwards
    [dest_dir] has, at every path of the tree or of the previous tree, what
    the tree has there (so a missing file of the tree is written again),
    and is unchanged elsewhere. *)
Theorem export_tree_missing_file (tree previous dest_dir : gmap (list string) string)
    (p : list string) :
  is_Some (previous !! p) → dest_dir !! p = None →
  dirty_paths previous dest_dir !! p = None
  ∧ collisions tree previous dest_dir !! p = None
  ∧ ((∀ q c c', previous !! q = Some c → dest_dir !! q = Some c' → c = c') →
     (∀ q, is_Some (tree !! q) → previous !! q = None → dest_dir !! q = None) →
     ∃ dest_dir',
       export_tree tree dest_dir (Some previous) false = (Ok (), dest_dir')
       ∧ dest_dir' !! p = tree !! p
       ∧ (∀ q, is_Some (tree !! q) ∨ is_Some (previous !! q) →
               dest_dir' !! q = tree !! q)
       ∧ (∀ q, tree !! q = None → previous !! q = None →
               dest_dir' !! q = dest_dir !! q)).
Proof.
  intros [c Hp] Hmissing. split; [|split].
  - by rewrite dirty_paths_lookup, Hp, Hmissing.
  - apply map_lookup_filter_None. by left.
  - intros Hclean Hfree. eexists. unfold export_tree. simpl.
    rewrite bool_decide_eq_true_2
      by (split; [by apply dirty_paths_clean | by apply collisions_clean]).
    split; [done|]. split; [|split].
    + rewrite exported_lookup, Hp. by destruct (tree !! p).
    + intros q Hq. rewrite exported_lookup.
      destruct (tree !! q) as [?|] eqn:Ht; [done|].
      destruct Hq as [[? ?]|[? ->]]; done.
    + intros q Ht Hq. by rewrite exported_lookup, Ht, Hq.
Qed.

Lemma export_tree_missing_file_witness :
  dirty_paths content (delete ["a"] content) !! ["a"] = None
  ∧ collisions new_content content (delete ["a"] content) !! ["a"] = None
  ∧ ∃ dest_dir',
      export_tree new_content (delete ["a"] content) (Some content) false
      = (Ok (), dest_dir')
      ∧ dest_dir' !! ["a"] = Some "foo different"
      ∧ dest_dir' !! ["newfile"] = Some "newfile stuff".
Proof.
  destruct (export_tree_missing_file new_content content (delete ["a"] content) ["a"])
    as (Hclean & Hfree & Hexport); [by_evaluation | reflexivity |].
  split; [exact Hclean|]. split; [exact Hfree|].
  assert (∀ q c c', content !! q = Some c →
            delete ["a"] content !! q = Some c' → c = c') as Hunchanged.
  { intros q c c' Hq [_ Hd]%lookup_delete_Some. congruence. }
  assert (∀ q, is_Some (new_content !! q) → content !! q = None →
            delete ["a"] content !! q = None) as Hadded.
  { intros q _ Hq. apply lookup_delete_None. by right. }
  destruct (Hexport Hunchanged Hadded) as (dest_dir' & Hexp & Ha & Hall & _).
  exists dest_dir'. split; [exact Hexp|]. split; [exact Ha|].
  apply (Hall ["newfile"]). left. by_evaluation.
Defined.

#[local] Instance below_prefix_inj (prefix : list string) :
  Inj (=) (=) (app prefix).
Proof. intros x y. apply app_inv_head. Qed.

Lemma subtree_empty (tree : gmap (list string) string) prefix :
  subtree prefix tree = ∅ ↔ ¬ resolves tree prefix.
Proof.
  unfold subtree, resolves. rewrite map_empty. split.
  - intros H (q & c & Hq). specialize (H (prefix ++ q)).
    apply map_lookup_filter_None in H as [H|H]; [congruence|].
    apply (H c Hq). by exists q.
  - intros H p. apply map_lookup_filter_None.
    destruct (tree !! p) as [c|] eqn:Hp; [|by left].
    right. intros c' _ Hpre. simpl in Hpre. destruct Hpre as [q ->].
    apply H. by exists q, c.
Qed.

(** C3. When the normalized prefix already resolves in [A], to a file or to
    a subtree that is not empty, [merge_trees(A, B, prefix)] fails with
    MergeConflictError. When it does not, the merge keeps every file of [A]
    as it is and has [B] below the prefix: nothing of [A] is overwritten
    or dropped. *)
Theorem merge_trees_conflict (A B : gmap (list string) string) (prefix : string) :
  (resolves A (normalize prefix) →
     merge_trees (Some A) B prefix = Raise MergeConflictError)
  ∧ (¬ resolves A (normalize prefix) →
     ∃ merged, merge_trees (Some A) B prefix = Ok merged
               ∧ (∀ q c, A !! q = Some c → merged !! q = Some c)
               ∧ (∀ q, merged !! (normalize prefix ++ q) = B !! q)).
Proof.
  unfold merge_trees. simpl. split.
  - intros Hres. rewrite bool_decide_eq_false_2; [done|].
    intros Hempty. by apply subtree_empty in Hempty.
  - intros Hres. rewrite bool_decide_eq_true_2 by by apply subtree_empty.
    simpl. eexists. split; [done|]. split.
    + intros q c Hq. rewrite lookup_union_r; [done|].
      apply (lookup_kmap_None (app _)). intros i ->.
      exfalso. apply Hres. by exists i, c.
    + intros q. rewrite lookup_union. rewrite (lookup_kmap (app _)).
      destruct (A !! (normalize prefix ++ q)) as [c|] eqn:Hq.
      * exfalso. apply Hres. by exists q, c.
      * by destruct (B !! q).
Qed.

Example normalize_prefix : normalize "a//./b/" = ["a"; "b"].
Proof. reflexivity. Qed.

Lemma merge_trees_conflict_witness :
  merge_trees (Some content) content "subdir" = Ok merged_content
  ∧ merge_trees (Some merged_content) content "subdir" = Raise MergeConflictError
  ∧ merge_trees None {[ ["file"] := "stuff" ]} "a/b/"
    = Ok {[ ["a"; "b"; "file"] := "stuff" ]}.
Proof.
  split; [vm_compute; reflexivity|]. split; [|vm_compute; reflexivity].
  apply (merge_trees_conflict merged_content content "subdir").
  exists ["a"]. by_evaluation.
Defined.

(** test_previous_tree, test_export_force_with_preexisting_files and the
    filters of test_import_with_excludes_and_files *)
Example previous_tree_moves_to_new_content :
  export_tree new_content content (Some content) false = (Ok (), new_content)
  ∧ export_tree new_content (delete ["a"] content) (Some content) false
    = (Ok (), new_content)
  ∧ export_tree content {[ ["a"] := "junk" ]} None false
    = (Raise DirtyWorkingCopyError, {[ ["a"] := "junk" ]})
  ∧ export_tree content {[ ["a"] := "junk" ]} None true = (Ok (), content)
  ∧ export_tree content {[ ["untracked"] := "stuff" ]} None false
    = (Ok (), <[ ["untracked"] := "stuff" ]> content)
  ∧ export_tree content (<[ ["untracked"] := "stuff" ]> content) None false
    = (Raise DirtyWorkingCopyError, <[ ["untracked"] := "stuff" ]> content)
  ∧ export_tree new_content (<[ ["newfile"] := "local" ]> content) (Some content) false
    = (Raise DirtyWorkingCopyError, <[ ["newfile"] := "local" ]> content)
  ∧ files (without (normalize <$> ["b/c"]) [] (Directory (picked ["b"] content_dir)))
    = {[ ["b"; "d"] := "baz" ]}.
Proof. repeat split; by vm_compute. Qed.

End cache.
